(** * vast::util::range_map

    A shallow embedding of [src/vast/util/range_map.hpp]: an associative
    container that maps half-open intervals [[l, r)] of an arithmetic
    [Point] type to values, stored in a
    [std::map<Point, std::pair<Point, Value>>] keyed by the left endpoint.

    - [Point] is modelled by [Z], which covers the integer types: the
      source only compares points ([<], [<=], [==]) and never computes
      with them, so no wrap-around can occur; the constant [0] appears
      once, in [find].
    - The [std::map] is modelled by the list of its nodes in key order.
    - A map iterator is modelled by the node it designates, [None] being
      [end()].  Every read through an iterator in the source happens
      while the node still holds what it held when the iterator was
      obtained, except [value(it)] in [erase(l, r)], which the preceding
      assignment to [right(it)] does not touch.
    - The unbounded [for (;;)] of [erase(l, r)] takes a fuel argument and
      returns [None] when the fuel runs out. *)

From Stdlib Require Import ZArith List Bool Lia String Sorted.
Import ListNotations.
Open Scope Z_scope.

(** The values of the examples. *)
Definition A : string := "A"%string.
Definition B : string := "B"%string.

Section RangeMap.

Variable Value : Type.

(** [operator==] of [Value]. *)
Variable value_eqb : Value -> Value -> bool.
Hypothesis value_eqb_spec : forall a b, value_eqb a b = true <-> a = b.

(** ** The underlying [std::map] *)

Definition entry : Type := Z * (Z * Value).
Definition map_type : Type := list entry.
Definition iterator : Type := option entry.

Definition left (e : entry) : Z := fst e.
Definition right (e : entry) : Z := fst (snd e).
Definition value (e : entry) : Value := snd (snd e).

Definition map_end : iterator := None.

Definition map_begin (m : map_type) : iterator :=
  match m with
  | [] => None
  | e :: _ => Some e
  end.

Definition map_empty (m : map_type) : bool :=
  match m with
  | [] => true
  | _ :: _ => false
  end.

(** Iterator comparison: two iterators are equal when they designate the
    same node, that is the same key, or are both [end()]. *)
Definition it_eqb (i j : iterator) : bool :=
  match i, j with
  | None, None => true
  | Some a, Some b => left a =? left b
  | _, _ => false
  end.

(** [map_.lower_bound(x)]: the first node whose key is not less than [x]. *)
Fixpoint lower_bound (m : map_type) (x : Z) : iterator :=
  match m with
  | [] => None
  | e :: m' => if x <=? left e then Some e else lower_bound m' x
  end.

(** The first node whose key is greater than [x]. *)
Fixpoint upper_bound (m : map_type) (x : Z) : iterator :=
  match m with
  | [] => None
  | e :: m' => if x <? left e then Some e else upper_bound m' x
  end.

(** The last node. *)
Fixpoint last_entry (m : map_type) : iterator :=
  match m with
  | [] => None
  | e :: m' =>
      match last_entry m' with
      | Some e' => Some e'
      | None => Some e
      end
  end.

(** The last node whose key is less than [x]. *)
Fixpoint pred_entry (m : map_type) (x : Z) : iterator :=
  match m with
  | [] => None
  | e :: m' =>
      if left e <? x then
        match pred_entry m' x with
        | Some e' => Some e'
        | None => Some e
        end
      else None
  end.

(** [--i]. *)
Definition prev (m : map_type) (i : iterator) : iterator :=
  match i with
  | None => last_entry m
  | Some e => pred_entry m (left e)
  end.

(** [++i]; not used on [end()]. *)
Definition next (m : map_type) (i : iterator) : iterator :=
  match i with
  | None => None
  | Some e => upper_bound m (left e)
  end.

(** [map_.emplace(k, rv)]: nothing happens when the key is present; the
    boolean is the [.second] of the returned pair. *)
Fixpoint map_emplace (m : map_type) (k : Z) (rv : Z * Value)
  : bool * map_type :=
  match m with
  | [] => (true, [(k, rv)])
  | e :: m' =>
      if k <? left e then (true, (k, rv) :: e :: m')
      else if k =? left e then (false, e :: m')
      else let (b, m'') := map_emplace m' k rv in (b, e :: m'')
  end.

(** [map_.erase(i)] for the node with key [k]. *)
Fixpoint map_erase (m : map_type) (k : Z) : map_type :=
  match m with
  | [] => []
  | e :: m' => if left e =? k then m' else e :: map_erase m' k
  end.

(** [right(i) = x] for the node with key [k]. *)
Fixpoint set_right (m : map_type) (k : Z) (x : Z) : map_type :=
  match m with
  | [] => []
  | e :: m' =>
      if left e =? k then (left e, (x, value e)) :: m'
      else e :: set_right m' k x
  end.

(** Assignment and erasure through an iterator; the source never does
    either through [end()]. *)
Definition assign_right (m : map_type) (i : iterator) (x : Z) : map_type :=
  match i with
  | None => m
  | Some e => set_right m (left e) x
  end.

Definition erase_at (m : map_type) (i : iterator) : map_type :=
  match i with
  | None => m
  | Some e => map_erase m (left e)
  end.

(** ** range_map *)

(** [locate(p, lb)]. *)
Definition locate (m : map_type) (p : Z) (lb : iterator) : iterator :=
  if match lb with
     | Some e => p =? left e
     | None => false
     end
  then lb
  else if negb (it_eqb lb (map_begin m)) then
    let lb := prev m lb in
    match lb with
    | Some e => if p <? right e then lb else map_end
    | None => map_end
    end
  else map_end.

(** The private [emplace(l, r, v)]. *)
Definition emplace (m : map_type) (l r : Z) (v : Value) : bool * map_type :=
  map_emplace m l (r, v).

(** [insert(l, r, v)]: the returned boolean and the map afterwards. *)
Definition insert (m : map_type) (l r : Z) (v : Value) : bool * map_type :=
  if r <=? l then (false, m)
  else
    let lb := lower_bound m l in
    if it_eqb (locate m l lb) map_end
       && match lb with
          | None => true
          | Some e => r <=? left e
          end
    then map_emplace m l (r, v)
    else (false, m).

(** [inject(l, r, v)]. *)
Definition inject (m : map_type) (l r : Z) (v : Value) : bool * map_type :=
  if r <=? l then (false, m)
  else if map_empty m then emplace m l r v
  else
    let i := lower_bound m l in
    let i :=
      if match i with
         | None => true
         | Some e => negb (it_eqb i (map_begin m)) && negb (l =? left e)
         end
      then prev m i
      else i in
    let n := next m i in
    let p := if negb (it_eqb i (map_begin m)) then prev m i else map_end in
    match i with
    | None => (false, m) (* not reached: the map is not empty *)
    | Some ei =>
        let fits_left :=
          (r <=? left ei)
          && match p with
             | None => true
             | Some ep => right ep <=? l
             end in
        let fits_right :=
          (right ei <=? l)
          && match n with
             | None => true
             | Some en => r <=? left en
             end in
        if fits_left then
          let right_merge := (r =? left ei) && value_eqb v (value ei) in
          let left_merge :=
            match p with
            | None => false
            | Some ep => (l =? right ep) && value_eqb v (value ep)
            end in
          if left_merge && right_merge then
            (true, erase_at (assign_right m p (right ei)) i)
          else if left_merge then
            (true, assign_right m p r)
          else if right_merge then
            (true, erase_at (snd (emplace m l (right ei) v)) i)
          else
            (true, snd (emplace m l r v))
        else if fits_right then
          let right_merge :=
            match n with
            | None => false
            | Some en => (r =? left en) && value_eqb v (value en)
            end in
          let left_merge := (l =? right ei) && value_eqb v (value ei) in
          if left_merge && right_merge then
            match n with
            | None => (true, m) (* not reached: right_merge holds *)
            | Some en => (true, erase_at (assign_right m i (right en)) n)
            end
          else if left_merge then
            (true, assign_right m i r)
          else if right_merge then
            match n with
            | None => (true, m) (* not reached: right_merge holds *)
            | Some en => (true, erase_at (snd (emplace m l (right en) v)) n)
            end
          else
            (true, snd (emplace m l r v))
        else (false, m)
    end.

(** [erase(p)]. *)
Definition erase_point (m : map_type) (p : Z) : bool * map_type :=
  let i := locate m p (lower_bound m p) in
  match i with
  | None => (false, m)
  | Some _ => (true, erase_at m i)
  end.

(** The loop of [erase(l, r)], [next_left] being the scan cursor.  [None]
    means that [fuel] iterations did not reach a [break]. *)
Fixpoint erase_loop (fuel : nat) (l r next_left : Z) (m : map_type)
  : option map_type :=
  match fuel with
  | O => None
  | S fuel' =>
      let lb := lower_bound m next_left in
      let it := locate m next_left lb in
      let it := if it_eqb it map_end then lb else it in
      match it with
      | None => Some m
      | Some e =>
          if r <=? left e then Some m
          else
            let next_left := right e in
            if (l <=? left e) && (right e <=? r) then
              erase_loop fuel' l r next_left (erase_at m it)
            else if (left e <=? l) && (r <=? right e) then
              let orig_r := right e in
              let m1 := assign_right m it l in
              Some (snd (inject m1 r orig_r (value e)))
            else if (l <=? left e) && (left e <? r) then
              let m1 := snd (map_emplace m r (right e, value e)) in
              Some (erase_at m1 it)
            else if (l <? right e) && (right e <=? r) then
              erase_loop fuel' l r next_left (assign_right m it l)
            else erase_loop fuel' l r next_left m
      end
  end.

(** [erase(l, r)]. *)
Definition erase_range (fuel : nat) (m : map_type) (l r : Z)
  : option map_type :=
  if r <=? l then Some m else erase_loop fuel l r l m.

(** [lookup(p)]: [None] is the null pointer. *)
Definition lookup (m : map_type) (p : Z) : option Value :=
  match locate m p (lower_bound m p) with
  | Some e => Some (value e)
  | None => None
  end.

(** [find(p)]. *)
Definition find (m : map_type) (p : Z) : Z * Z * option Value :=
  match locate m p (lower_bound m p) with
  | None => (0, 0, None)
  | Some e => (left e, right e, Some (value e))
  end.

Definition size (m : map_type) : nat := List.length m.

Definition clear (m : map_type) : map_type := [].

(** ** Invariants *)

(** What [std::map] itself guarantees: the keys strictly increase. *)
Definition key_sorted (m : map_type) : Prop :=
  StronglySorted (fun a b => left a < left b) m.

(** [p] lies in the half-open interval of [e]. *)
Definition contains (e : entry) (p : Z) : Prop :=
  left e <= p /\ p < right e.

(** Two stored intervals do not overlap. *)
Definition pairwise_disjoint (m : map_type) : Prop :=
  forall a b, In a m -> In b m -> left a < left b -> right a <= left b.

(** The invariant the operations maintain: no interval is reversed and
    no two overlap.  Intervals of length zero are allowed. *)
Definition maintained (m : map_type) : Prop :=
  key_sorted m
  /\ (forall e, In e m -> left e <= right e)
  /\ pairwise_disjoint m.

(** The invariant of the data model: moreover no interval is empty. *)
Definition range_map_inv (m : map_type) : Prop :=
  key_sorted m
  /\ (forall e, In e m -> left e < right e)
  /\ pairwise_disjoint m.

(** The states of a [range_map] object: those the public operations
    produce from the empty map. *)
Inductive reachable : map_type -> Prop :=
| reach_empty : reachable []
| reach_insert m l r v :
    reachable m -> reachable (snd (insert m l r v))
| reach_inject m l r v :
    reachable m -> reachable (snd (inject m l r v))
| reach_erase_point m p :
    reachable m -> reachable (snd (erase_point m p))
| reach_erase_range m l r fuel m' :
    reachable m -> erase_range fuel m l r = Some m' -> reachable m'
| reach_clear m :
    reachable m -> reachable (clear m).

(** [[l, r)] and the interval of [e] have a point in common. *)
Definition overlaps (l r : Z) (e : entry) : Prop :=
  exists x, l <= x < r /\ contains e x.

(** The outcomes of [inject(l, r, v)] for [l < r], by the place of
    [[l, r)] among the stored nodes: rejected because of a node [e] that
    starts inside [[l, r)] or reaches over [l]; first node of an empty
    map; before the first node [ei]; after the last node [ei]; between
    two neighbouring nodes [ei] and [en]. *)
Inductive inject_outcome (m : map_type) (l r : Z) (v : Value)
  : bool * map_type -> Prop :=
| inject_fails e :
    In e m ->
    left e < r ->
    l <= left e \/ l < right e ->
    inject_outcome m l r v (false, m)
| inject_first :
    m = [] ->
    inject_outcome m l r v (true, [(l, (r, v))])
| inject_before ei :
    In ei m ->
    (forall e, In e m -> left ei <= left e) ->
    r <= left ei ->
    inject_outcome m l r v
      (true,
       if (r =? left ei) && value_eqb v (value ei)
       then map_erase (snd (map_emplace m l (right ei, v))) (left ei)
       else snd (map_emplace m l (r, v)))
| inject_after_last ei :
    In ei m ->
    right ei <= l ->
    (forall e, In e m -> left e <= left ei) ->
    inject_outcome m l r v
      (true,
       if (l =? right ei) && value_eqb v (value ei)
       then set_right m (left ei) r
       else snd (map_emplace m l (r, v)))
| inject_between ei en :
    In ei m -> In en m ->
    right ei <= l -> r <= left en -> left ei < left en ->
    (forall e, In e m -> left e <= left ei \/ left en <= left e) ->
    inject_outcome m l r v
      (true,
       if (l =? right ei) && value_eqb v (value ei) then
         if (r =? left en) && value_eqb v (value en)
         then map_erase (set_right m (left ei) (right en)) (left en)
         else set_right m (left ei) r
       else
         if (r =? left en) && value_eqb v (value en)
         then map_erase (snd (map_emplace m l (right en, v))) (left en)
         else snd (map_emplace m l (r, v))).

(** A decision procedure for the two invariants: with [strict] the
    data-model invariant, without it the maintained one. *)
Fixpoint nodes_ok (strict : bool) (m : map_type) : bool :=
  match m with
  | [] => true
  | e :: m' =>
      (if strict then left e <? right e else left e <=? right e)
      && forallb (fun e' => (left e <? left e') && (right e <=? left e')) m'
      && nodes_ok strict m'
  end.

(** The node that an iteration of the loop of [erase(l, r)] handles when
    the cursor is [x]: the value of [it] at the test of the [break]. *)
Definition candidate (m : map_type) (x : Z) : iterator :=
  let lb := lower_bound m x in
  let it := locate m x lb in
  if it_eqb it map_end then lb else it.

(** ** What the map says and how it is traversed *)

(** The map associates the value [w] with the point [p]: a stored
    interval that contains [p] carries [w]. *)
Definition maps_to (m : map_type) (p : Z) (w : Value) : Prop :=
  exists e, In e m /\ contains e p /\ value e = w.

(** [const_iterator::dereference()]: the triple of references to the
    key, the right end and the value of the node. *)
Definition dereference (e : entry) : Z * Z * Value :=
  (left e, right e, value e).

(** The sequence a loop from [begin()] to [end()] sees.  The iterator
    adaptor of [vast/util/iterator.hpp] is not among the sources: it is
    taken to step its base iterator, the iterator of the underlying map,
    and to yield [dereference()] at each node. *)
Definition traverse (m : map_type) : list (Z * Z * Value) :=
  List.map dereference m.

(** Markers that keep a fact out of sight of [lia]. *)
Definition pending (P : Prop) : Prop := P.
Definition undecided (P : Prop) : Prop := P.

(** ** The underlying map: facts *)

Lemma key_sorted_cons_inv e m :
  key_sorted (e :: m) ->
  key_sorted m /\ forall e', In e' m -> left e < left e'.
Proof.
  intros H. apply StronglySorted_inv in H. destruct H as [Hs Hf].
  split; [exact Hs|]. rewrite Forall_forall in Hf. exact Hf.
Qed.

Lemma key_sorted_cons e m :
  key_sorted m -> (forall e', In e' m -> left e < left e') ->
  key_sorted (e :: m).
Proof.
  intros Hs Hf. constructor; [exact Hs|]. rewrite Forall_forall. exact Hf.
Qed.

Lemma key_sorted_nil : key_sorted [].
Proof. constructor. Qed.

(** A key designates at most one node. *)
Lemma key_unique m a b :
  key_sorted m -> In a m -> In b m -> left a = left b -> a = b.
Proof.
  induction m as [|e m IH]; intros Hs Ha Hb Hk; [contradiction|].
  apply key_sorted_cons_inv in Hs. destruct Hs as [Hs Hf].
  destruct Ha as [Ha|Ha], Hb as [Hb|Hb]; subst.
  - reflexivity.
  - specialize (Hf _ Hb). lia.
  - specialize (Hf _ Ha). lia.
  - auto.
Qed.

Lemma lower_bound_None m x :
  lower_bound m x = None -> forall e, In e m -> left e < x.
Proof.
  induction m as [|e m IH]; simpl; intros H e' He'; [contradiction|].
  destruct (x <=? left e) eqn:E; [discriminate|].
  apply Z.leb_gt in E. destruct He' as [<-|He']; auto.
Qed.

Lemma lower_bound_Some m x e :
  key_sorted m -> lower_bound m x = Some e ->
  In e m /\ x <= left e /\ forall e', In e' m -> left e' < left e -> left e' < x.
Proof.
  induction m as [|e0 m IH]; simpl; intros Hs H; [discriminate|].
  apply key_sorted_cons_inv in Hs. destruct Hs as [Hs Hf].
  destruct (x <=? left e0) eqn:E.
  - injection H as <-. apply Z.leb_le in E. repeat split; auto.
    intros e' [<-|He'] Hlt; [lia|]. specialize (Hf _ He'). lia.
  - apply Z.leb_gt in E. destruct (IH Hs H) as (Hin & Hle & Hmin).
    repeat split; auto.
    intros e' [<-|He'] Hlt; [lia|]. auto.
Qed.

Lemma upper_bound_None m x :
  upper_bound m x = None -> forall e, In e m -> left e <= x.
Proof.
  induction m as [|e m IH]; simpl; intros H e' He'; [contradiction|].
  destruct (x <? left e) eqn:E; [discriminate|].
  apply Z.ltb_ge in E. destruct He' as [<-|He']; auto.
Qed.

Lemma upper_bound_Some m x e :
  key_sorted m -> upper_bound m x = Some e ->
  In e m /\ x < left e /\ forall e', In e' m -> left e' < left e -> left e' <= x.
Proof.
  induction m as [|e0 m IH]; simpl; intros Hs H; [discriminate|].
  apply key_sorted_cons_inv in Hs. destruct Hs as [Hs Hf].
  destruct (x <? left e0) eqn:E.
  - injection H as <-. apply Z.ltb_lt in E. repeat split; auto.
    intros e' [<-|He'] Hlt; [lia|]. specialize (Hf _ He'). lia.
  - apply Z.ltb_ge in E. destruct (IH Hs H) as (Hin & Hle & Hmin).
    repeat split; auto.
    intros e' [<-|He'] Hlt; [lia|]. auto.
Qed.

Lemma last_entry_None m : last_entry m = None -> m = [].
Proof.
  destruct m as [|e m]; simpl; [reflexivity|].
  destruct (last_entry m); discriminate.
Qed.

Lemma last_entry_Some m e :
  key_sorted m -> last_entry m = Some e ->
  In e m /\ forall e', In e' m -> left e' <= left e.
Proof.
  induction m as [|e0 m IH]; simpl; intros Hs H; [discriminate|].
  apply key_sorted_cons_inv in Hs. destruct Hs as [Hs Hf].
  destruct (last_entry m) as [e1|] eqn:E.
  - injection H as <-. destruct (IH Hs eq_refl) as [Hin Hmax].
    split; auto. intros e' [<-|He']; auto.
    specialize (Hf _ Hin). lia.
  - injection H as <-. apply last_entry_None in E. subst m.
    split; [left; reflexivity|]. intros e' [<-|[]]. lia.
Qed.

Lemma pred_entry_None m x :
  key_sorted m -> pred_entry m x = None -> forall e, In e m -> x <= left e.
Proof.
  destruct m as [|e0 m]; simpl; intros Hs H e He; [contradiction|].
  apply key_sorted_cons_inv in Hs. destruct Hs as [Hs Hf].
  destruct (left e0 <? x) eqn:E.
  - destruct (pred_entry m x); discriminate.
  - apply Z.ltb_ge in E. destruct He as [<-|He]; [lia|].
    specialize (Hf _ He). lia.
Qed.

Lemma pred_entry_Some m x e :
  key_sorted m -> pred_entry m x = Some e ->
  In e m /\ left e < x /\ forall e', In e' m -> left e' < x -> left e' <= left e.
Proof.
  induction m as [|e0 m IH]; simpl; intros Hs H; [discriminate|].
  pose proof Hs as Hs0.
  apply key_sorted_cons_inv in Hs. destruct Hs as [Hs Hf].
  destruct (left e0 <? x) eqn:E; [|discriminate].
  apply Z.ltb_lt in E.
  destruct (pred_entry m x) as [e1|] eqn:E1.
  - injection H as <-. destruct (IH Hs eq_refl) as (Hin & Hlt & Hmax).
    repeat split; auto.
    intros e' [<-|He'] Hl; auto. specialize (Hf _ Hin). lia.
  - injection H as <-. repeat split; auto.
    intros e' [<-|He'] Hl; [lia|].
    pose proof (pred_entry_None m x Hs E1 _ He'). lia.
Qed.

Lemma map_begin_Some m e :
  key_sorted m -> map_begin m = Some e ->
  In e m /\ forall e', In e' m -> left e <= left e'.
Proof.
  destruct m as [|e0 m]; simpl; intros Hs H; [discriminate|].
  injection H as <-. apply key_sorted_cons_inv in Hs. destruct Hs as [Hs Hf].
  split; auto. intros e' [<-|He']; [lia|]. specialize (Hf _ He'). lia.
Qed.

Lemma map_begin_None m : map_begin m = None -> m = [].
Proof. destruct m; [reflexivity|discriminate]. Qed.

(** [i != map_.begin()] for an iterator of the map: some node precedes. *)
Lemma not_begin_Some m e :
  key_sorted m -> In e m ->
  it_eqb (Some e) (map_begin m) = false ->
  exists e', In e' m /\ left e' < left e.
Proof.
  intros Hs He H. destruct (map_begin m) as [b|] eqn:E.
  - destruct (map_begin_Some _ _ Hs E) as [Hb Hmin].
    simpl in H. apply Z.eqb_neq in H. exists b. split; auto.
    specialize (Hmin _ He). lia.
  - apply map_begin_None in E. subst. contradiction.
Qed.

Lemma is_begin_Some m e :
  key_sorted m ->
  it_eqb (Some e) (map_begin m) = true ->
  forall e', In e' m -> left e <= left e'.
Proof.
  intros Hs H. destruct (map_begin m) as [b|] eqn:E; [|discriminate].
  destruct (map_begin_Some _ _ Hs E) as [Hb Hmin].
  simpl in H. apply Z.eqb_eq in H. intros e' He'. specialize (Hmin _ He'). lia.
Qed.

Lemma is_begin_None m : it_eqb None (map_begin m) = true -> m = [].
Proof. destruct m; [reflexivity|discriminate]. Qed.

Lemma not_begin_None m : it_eqb None (map_begin m) = false -> m <> [].
Proof. destruct m; [discriminate|]. intros _ H; discriminate. Qed.

Lemma In_map_erase m k e :
  key_sorted m ->
  (In e (map_erase m k) <-> In e m /\ left e <> k).
Proof.
  induction m as [|e0 m IH]; simpl; intros Hs; [tauto|].
  apply key_sorted_cons_inv in Hs. destruct Hs as [Hs Hf].
  destruct (left e0 =? k) eqn:E.
  - apply Z.eqb_eq in E. split.
    + intros H. split; auto. specialize (Hf _ H). lia.
    + intros [[<-|H] Hn]; [contradiction|exact H].
  - apply Z.eqb_neq in E. simpl. rewrite (IH Hs). split.
    + intros [<-|[H Hn]]; auto.
    + intros [[<-|H] Hn]; auto.
Qed.

Lemma key_sorted_map_erase m k : key_sorted m -> key_sorted (map_erase m k).
Proof.
  induction m as [|e0 m IH]; simpl; intros Hs; [exact Hs|].
  pose proof (key_sorted_cons_inv _ _ Hs) as [Hs' Hf].
  destruct (left e0 =? k); [exact Hs'|].
  apply key_sorted_cons; auto.
  intros e' He'. apply (In_map_erase _ _ _ Hs') in He'. apply Hf, He'.
Qed.

Lemma In_set_right m k x e :
  key_sorted m ->
  (In e (set_right m k x) <->
   (In e m /\ left e <> k)
   \/ exists e0, In e0 m /\ left e0 = k /\ e = (k, (x, value e0))).
Proof.
  induction m as [|e0 m IH]; simpl; intros Hs.
  - split; [tauto|]. intros [[[] _]|(e1 & [] & _)].
  - apply key_sorted_cons_inv in Hs. destruct Hs as [Hs Hf].
    destruct (left e0 =? k) eqn:E.
    + apply Z.eqb_eq in E. simpl. split.
      * intros [<-|H].
        -- right. exists e0. rewrite E. auto.
        -- left. split; auto. specialize (Hf _ H). lia.
      * intros [[[<-|H] Hn]|(e1 & [<-|H1] & Hk & ->)].
        -- contradiction.
        -- right. exact H.
        -- left. rewrite E. reflexivity.
        -- specialize (Hf _ H1). lia.
    + apply Z.eqb_neq in E. simpl. rewrite (IH Hs). split.
      * intros [<-|[[H Hn]|(e1 & H1 & Hk & ->)]]; auto.
        right. exists e1. auto.
      * intros [[[<-|H] Hn]|(e1 & [<-|H1] & Hk & ->)]; auto.
        -- contradiction.
        -- right. right. exists e1. auto.
Qed.

Lemma left_set_right m k x e :
  In e (set_right m k x) -> exists e0, In e0 m /\ left e0 = left e.
Proof.
  induction m as [|e0 m IH]; simpl; [tauto|].
  destruct (left e0 =? k) eqn:E; simpl.
  - intros [He|H]; [exists e0; subst e; auto|exists e; auto].
  - intros [He|H]; [exists e0; subst e; auto|].
    destruct (IH H) as (e1 & H1 & Hk). exists e1. auto.
Qed.

Lemma key_sorted_set_right m k x : key_sorted m -> key_sorted (set_right m k x).
Proof.
  induction m as [|e0 m IH]; simpl; intros Hs; [exact Hs|].
  pose proof (key_sorted_cons_inv _ _ Hs) as [Hs' Hf].
  destruct (left e0 =? k).
  - apply key_sorted_cons; auto.
  - apply key_sorted_cons; auto.
    intros e' He'. apply left_set_right in He'.
    destruct He' as (e1 & H1 & <-). auto.
Qed.

Lemma In_map_emplace m k rv e :
  key_sorted m ->
  (In e (snd (map_emplace m k rv)) <->
   In e m \/ (e = (k, rv) /\ forall e', In e' m -> left e' <> k)).
Proof.
  induction m as [|e0 m IH]; simpl; intros Hs.
  - split.
    + intros [<-|[]]. right. split; auto.
    + intros [[]|[-> _]]. auto.
  - apply key_sorted_cons_inv in Hs. destruct Hs as [Hs Hf].
    destruct (k <? left e0) eqn:E1; simpl.
    + apply Z.ltb_lt in E1. split.
      * intros [<-|H]; auto. right. split; auto.
        intros e' [<-|He']; [lia|]. specialize (Hf _ He'). lia.
      * intros [H|[-> _]]; auto.
    + apply Z.ltb_ge in E1. destruct (k =? left e0) eqn:E2; simpl.
      * apply Z.eqb_eq in E2. split; auto.
        intros [H|[-> Hn]]; auto. exfalso. apply (Hn e0); auto.
      * apply Z.eqb_neq in E2.
        destruct (map_emplace m k rv) as [b m''] eqn:Em. simpl in *.
        rewrite (IH Hs). split.
        -- intros [<-|[H|[-> Hn]]]; auto. right. split; auto.
           intros e' [<-|He']; auto.
        -- intros [[<-|H]|[-> Hn]]; auto.
           right. right. split; auto.
Qed.

Lemma left_map_emplace m k rv e :
  In e (snd (map_emplace m k rv)) -> In e m \/ e = (k, rv).
Proof.
  induction m as [|e0 m IH]; simpl.
  - intros [<-|[]]; auto.
  - destruct (k <? left e0); simpl; [intros [<-|H]; auto|].
    destruct (k =? left e0); simpl; auto.
    destruct (map_emplace m k rv) as [b m''] eqn:Em. simpl in *.
    intros [<-|H]; auto. destruct (IH H); auto.
Qed.

Lemma key_sorted_map_emplace m k rv :
  key_sorted m -> key_sorted (snd (map_emplace m k rv)).
Proof.
  induction m as [|e0 m IH]; simpl; intros Hs.
  - apply key_sorted_cons; [constructor|]. intros e' [].
  - pose proof (key_sorted_cons_inv _ _ Hs) as [Hs' Hf].
    destruct (k <? left e0) eqn:E1; simpl.
    + apply Z.ltb_lt in E1. apply key_sorted_cons; auto.
      intros e' [<-|He']; auto. specialize (Hf _ He'). unfold left at 1. simpl. lia.
    + apply Z.ltb_ge in E1. destruct (k =? left e0) eqn:E2; simpl; auto.
      apply Z.eqb_neq in E2.
      destruct (map_emplace m k rv) as [b m''] eqn:Em. simpl in *.
      apply key_sorted_cons; auto.
      intros e' He'. replace m'' with (snd (map_emplace m k rv)) in He' by (rewrite Em; reflexivity).
      apply left_map_emplace in He'. destruct He' as [He'| ->]; auto.
      unfold left at 2. simpl. lia.
Qed.

Lemma map_emplace_true m k rv :
  (forall e, In e m -> left e <> k) -> fst (map_emplace m k rv) = true.
Proof.
  induction m as [|e0 m IH]; simpl; intros Hn; [reflexivity|].
  destruct (k <? left e0); [reflexivity|].
  destruct (k =? left e0) eqn:E2.
  - apply Z.eqb_eq in E2. exfalso. apply (Hn e0); auto.
  - destruct (map_emplace m k rv) as [b m''] eqn:Em. simpl in *.
    apply IH. intros e He. apply Hn. auto.
Qed.

Lemma map_emplace_false m k rv e :
  key_sorted m -> In e m -> left e = k ->
  map_emplace m k rv = (false, m).
Proof.
  induction m as [|e0 m IH]; simpl; intros Hs He Hk; [contradiction|].
  apply key_sorted_cons_inv in Hs. destruct Hs as [Hs Hf].
  destruct He as [<-|He].
  - rewrite <- Hk, Z.ltb_irrefl, Z.eqb_refl. reflexivity.
  - specialize (Hf _ He).
    destruct (k <? left e0) eqn:E1; [apply Z.ltb_lt in E1; lia|].
    destruct (k =? left e0) eqn:E2; [apply Z.eqb_eq in E2; lia|].
    rewrite (IH Hs He Hk). reflexivity.
Qed.

(** ** range_map: facts *)

Ltac bool_hyps :=
  repeat match goal with
  | H : (_ <=? _) = true |- _ => apply Z.leb_le in H
  | H : (_ <=? _) = false |- _ => apply Z.leb_gt in H
  | H : (_ <? _) = true |- _ => apply Z.ltb_lt in H
  | H : (_ <? _) = false |- _ => apply Z.ltb_ge in H
  | H : (_ =? _) = true |- _ => apply Z.eqb_eq in H
  | H : (_ =? _) = false |- _ => apply Z.eqb_neq in H
  | H : (_ && _) = true |- _ => apply andb_true_iff in H; destruct H
  | H : negb _ = true |- _ => apply negb_true_iff in H
  | H : negb _ = false |- _ => apply negb_false_iff in H
  end.

Lemma maintained_sorted m : maintained m -> key_sorted m.
Proof. intros H. apply H. Qed.

Lemma range_map_inv_maintained m : range_map_inv m -> maintained m.
Proof.
  intros (Hs & Hne & Hd). repeat split; auto.
  intros e He. specialize (Hne _ He). lia.
Qed.

(** What [locate] returns on the lower bound of [p]: the node that starts
    at [p] or covers [p]; and [end()] only when there is none. *)
Lemma locate_spec m p :
  maintained m ->
  match locate m p (lower_bound m p) with
  | Some e => In e m /\ left e <= p /\ (p = left e \/ p < right e)
  | None => forall e, In e m -> left e <> p /\ ~ contains e p
  end.
Proof.
  intros (Hs & Hle & Hd). unfold locate, contains.
  destruct (lower_bound m p) as [lb|] eqn:Elb.
  - destruct (lower_bound_Some _ _ _ Hs Elb) as (Hlb & Hp & Hmin).
    destruct (p =? left lb) eqn:E1; bool_hyps.
    { repeat split; auto. lia. }
    destruct (it_eqb (Some lb) (map_begin m)) eqn:E2; simpl.
    + intros e He. pose proof (is_begin_Some _ _ Hs E2 _ He). lia.
    + destruct (pred_entry m (left lb)) as [q|] eqn:E3.
      * destruct (pred_entry_Some _ _ _ Hs E3) as (Hq & Hql & Hmax).
        pose proof (Hmin _ Hq Hql).
        destruct (p <? right q) eqn:E4; bool_hyps.
        { repeat split; auto. lia. }
        intros e He.
        assert (left e <> p) by (intros Heq; specialize (Hmin _ He); lia).
        split; auto. intros [H1 H2].
        assert (left e <= left q) by (apply Hmax; auto; lia).
        destruct (Z.eq_dec (left e) (left q)) as [Heq|Hne].
        -- rewrite (key_unique _ _ _ Hs He Hq Heq) in H2. lia.
        -- assert (right e <= left q) by (apply Hd; auto; lia). lia.
      * intros e He. pose proof (pred_entry_None _ _ Hs E3 _ He). lia.
  - pose proof (lower_bound_None _ _ Elb) as Hall.
    destruct (it_eqb None (map_begin m)) eqn:E2; simpl.
    + apply is_begin_None in E2. subst. intros e [].
    + destruct (last_entry m) as [q|] eqn:E3.
      * destruct (last_entry_Some _ _ Hs E3) as (Hq & Hmax).
        pose proof (Hall _ Hq).
        destruct (p <? right q) eqn:E4; bool_hyps.
        { repeat split; auto. lia. }
        intros e He. pose proof (Hall _ He).
        split; [lia|]. intros [H1 H2].
        pose proof (Hmax _ He).
        destruct (Z.eq_dec (left e) (left q)) as [Heq|Hne].
        -- rewrite (key_unique _ _ _ Hs He Hq Heq) in H2. lia.
        -- assert (right e <= left q) by (apply Hd; auto; lia). lia.
      * apply last_entry_None in E3. subst. intros e [].
Qed.

(** Under the data-model invariant [locate] finds exactly the interval
    that contains the point. *)
Lemma locate_contains m p :
  range_map_inv m ->
  match locate m p (lower_bound m p) with
  | Some e => In e m /\ contains e p
  | None => forall e, In e m -> ~ contains e p
  end.
Proof.
  intros Hinv. pose proof (locate_spec m p (range_map_inv_maintained _ Hinv)) as H.
  destruct Hinv as (Hs & Hne & Hd).
  destruct (locate m p (lower_bound m p)) as [e|].
  - destruct H as (He & Hl & Hr). split; auto. split; auto.
    specialize (Hne _ He). lia.
  - intros e He. apply H, He.
Qed.

(** At most one stored interval contains a point. *)
Lemma contains_unique m a b p :
  maintained m -> In a m -> In b m -> contains a p -> contains b p -> a = b.
Proof.
  intros (Hs & Hle & Hd) Ha Hb [Ha1 Ha2] [Hb1 Hb2].
  apply (key_unique m); auto.
  destruct (Z.lt_trichotomy (left a) (left b)) as [H|[H|H]]; auto.
  - pose proof (Hd _ _ Ha Hb H). lia.
  - pose proof (Hd _ _ Hb Ha H). lia.
Qed.

(** *** inject *)

(** Instantiate every fact about all nodes of [m] at the nodes at hand. *)
Ltac saturate m :=
  repeat match goal with
  | H : forall e, In e m -> _, Ha : In ?a m |- _ =>
      let T := type of (H a Ha) in
      lazymatch goal with
      | _ : T |- _ => fail
      | _ => pose proof (H a Ha)
      end
  end.

Ltac red_bool :=
  repeat (cbv beta iota zeta;
          first [ progress change (negb true) with false
                | progress change (negb false) with true
                | progress rewrite ?andb_false_l, ?andb_true_l,
                    ?andb_true_r, ?andb_false_r ]);
  cbv beta iota zeta.

(** [inject] rejects: find the node that is in the way. *)
Ltac reject m :=
  bool_hyps; saturate m;
  match goal with
  | H : In ?e m |- inject_outcome m ?l ?r ?v _ =>
      apply (inject_fails m l r v e H); lia
  end.

(** The tail of [inject] once the node [ei] is known: the test
    [fits_right] and what follows it. *)
Ltac inject_fits_right Hs Hei :=
  match goal with
  | |- context [upper_bound ?m (left ?ei)] =>
      let en := fresh "en" in
      let En := fresh "En" in
      let Elm := fresh "Elm" in
      let Erm := fresh "Erm" in
      let X := fresh "X" in
      destruct (upper_bound m (left ei)) as [en|] eqn:En;
      [ destruct (upper_bound_Some _ _ _ Hs En) as (? & ? & ?);
        destruct (right ei <=? _) eqn:?; [|reject m];
        destruct (_ <=? left en) eqn:?; [|reject m];
        red_bool; bool_hyps;
        match goal with
        | |- inject_outcome _ ?l ?r ?v _ =>
            assert (X : inject_outcome m l r v _)
              by (apply (inject_between m l r v ei en); auto;
                  intros e0 He0;
                  destruct (Z.lt_ge_cases (left e0) (left en)); auto);
            destruct ((l =? right ei) && value_eqb v (value ei)) eqn:Elm;
            destruct ((r =? left en) && value_eqb v (value en)) eqn:Erm;
            simpl; exact X
        end
      | pose proof (upper_bound_None _ _ En);
        destruct (right ei <=? _) eqn:?; [|reject m];
        red_bool; bool_hyps;
        match goal with
        | |- inject_outcome _ ?l ?r ?v _ =>
            assert (X : inject_outcome m l r v _)
              by (apply (inject_after_last m l r v ei); auto);
            destruct ((l =? right ei) && value_eqb v (value ei)) eqn:Elm;
            simpl; exact X
        end ]
  end.

(** [inject] always ends in one of the outcomes of [inject_outcome]. *)
Lemma inject_cases m l r v :
  key_sorted m -> l < r -> inject_outcome m l r v (inject m l r v).
Proof.
  intros Hs Hlr. unfold inject, map_end.
  destruct (r <=? l) eqn:E0; bool_hyps; [lia|].
  destruct (map_empty m) eqn:Em.
  { destruct m; [|discriminate]. apply inject_first. reflexivity. }
  destruct (lower_bound m l) as [lb|] eqn:Elb; cbv beta iota zeta.
  - destruct (lower_bound_Some _ _ _ Hs Elb) as (Hlb & Hl & Hmin).
    destruct (it_eqb (Some lb) (map_begin m)) eqn:Eb; red_bool.
    + rewrite Eb. red_bool.
      pose proof (is_begin_Some _ _ Hs Eb) as Hfirst.
      destruct (r <=? left lb) eqn:E1; red_bool.
      * bool_hyps.
        pose proof (inject_before m l r v lb Hlb Hfirst E1) as X.
        unfold erase_at, emplace.
        destruct ((r =? left lb) && value_eqb v (value lb)); exact X.
      * unfold next, erase_at, assign_right, emplace.
        inject_fits_right Hs Hlb.
    + destruct (l =? left lb) eqn:E1; red_bool.
      * bool_hyps. rewrite Eb. red_bool.
        destruct (r <=? left lb) eqn:E2; bool_hyps; [lia|].
        red_bool. unfold next, erase_at, assign_right, emplace.
        inject_fits_right Hs Hlb.
      * bool_hyps. change (prev m (Some lb)) with (pred_entry m (left lb)).
        destruct (pred_entry m (left lb)) as [ei|] eqn:Ei.
        2:{ destruct (not_begin_Some _ _ Hs Hlb Eb) as (e' & He' & Hlt).
            pose proof (pred_entry_None _ _ Hs Ei _ He'). lia. }
        destruct (pred_entry_Some _ _ _ Hs Ei) as (Hei & Hlt & Hmax).
        pose proof (Hmin _ Hei Hlt).
        destruct (r <=? left ei) eqn:E2; bool_hyps; [lia|].
        red_bool. unfold next, erase_at, assign_right, emplace.
        inject_fits_right Hs Hei.
  - pose proof (lower_bound_None _ _ Elb) as Hall.
    change (prev m None) with (last_entry m).
    destruct (last_entry m) as [ei|] eqn:Ei.
    2:{ apply last_entry_None in Ei. subst m. discriminate. }
    destruct (last_entry_Some _ _ Hs Ei) as (Hei & Hmax).
    pose proof (Hall _ Hei).
    destruct (r <=? left ei) eqn:E2; bool_hyps; [lia|].
    red_bool. unfold next, erase_at, assign_right, emplace.
    inject_fits_right Hs Hei.
Qed.

Create HintDb range_map discriminated.

Hint Resolve key_sorted_map_erase key_sorted_set_right
  key_sorted_map_emplace key_sorted_nil : range_map.

(** Trace a node of a modified map back to the map it comes from. *)
Ltac origin :=
  repeat match goal with
  | H : In _ (map_erase _ _) |- _ =>
      apply In_map_erase in H; [destruct H | solve [auto with range_map]]
  | H : In _ (set_right _ _ _) |- _ =>
      apply In_set_right in H;
      [destruct H as [[? ?]|(? & ? & ? & ?)] | solve [auto with range_map]]
  | H : In _ (snd (map_emplace _ _ _)) |- _ =>
      apply left_map_emplace in H; destruct H
  | H : In _ [] |- _ => destruct H
  end.

Ltac arith := unfold left, right, value in *; simpl in *; lia.

Lemma right_unique m :
  key_sorted m ->
  forall a, In a m -> forall b, In b m -> left a = left b -> right a = right b.
Proof.
  intros Hs a Ha b Hb E. rewrite (key_unique m a b Hs Ha Hb E). reflexivity.
Qed.

Lemma disjoint_curry m :
  pairwise_disjoint m ->
  forall a, In a m -> forall b, In b m -> left a < left b -> right a <= left b.
Proof. intros H a Ha b Hb. apply H; auto. Qed.

(** Settle the implications at hand one by one: use those whose premise
    holds, drop those whose premise fails, and leave only the others to
    [lia]. *)
Ltac settle :=
  repeat match goal with
  | H : ?P -> ?Q |- _ =>
      lazymatch Q with
      | False => fail
      | _ => lazymatch type of P with Prop => change (pending (P -> Q)) in H end
      end
  end;
  repeat match goal with
  | H : pending (?P -> ?Q) |- _ =>
      first [ let HP := fresh in
              assert (HP : P) by lia;
              unfold pending in H; specialize (H HP); clear HP
            | let HP := fresh in
              assert (HP : ~ P) by lia; clear H HP
            | change (undecided (P -> Q)) in H ]
  end;
  unfold undecided in *.

Ltac arith_sat m :=
  saturate m; unfold left, right, value in *; simpl in *; settle; lia.

Ltac maintained_tac m :=
  split; [auto with range_map|];
  split; [intros ?e ?He | intros ?a ?b ?Ha ?Hb ?Hlt];
  origin; subst; arith_sat m.

(** Every outcome of [inject] keeps the maintained invariant. *)
Lemma inject_outcome_maintained m l r v res :
  maintained m -> l < r -> inject_outcome m l r v res -> maintained (snd res).
Proof.
  intros Hm Hlr H. pose proof Hm as (Hs & Hv & Hd).
  pose proof (right_unique m Hs) as Hu.
  pose proof (disjoint_curry m Hd) as Hd'. clear Hd.
  destruct H as [| Hnil | | |]; simpl snd.
  - exact Hm.
  - subst m. split; [|split].
    + apply key_sorted_cons; [constructor|]. intros e' [].
    + intros e [<-|[]]. arith.
    + intros a b [<-|[]] [<-|[]]. lia.
  - destruct ((r =? left ei) && value_eqb v (value ei)) eqn:E; bool_hyps;
      maintained_tac m.
  - destruct ((l =? right ei) && value_eqb v (value ei)) eqn:E; bool_hyps;
      maintained_tac m.
  - destruct ((l =? right ei) && value_eqb v (value ei)) eqn:E1;
      destruct ((r =? left en) && value_eqb v (value en)) eqn:E2; bool_hyps;
      maintained_tac m.
Qed.

Lemma inject_maintained m l r v :
  maintained m -> maintained (snd (inject m l r v)).
Proof.
  intros Hm. destruct (Z.lt_ge_cases l r) as [Hlr|Hlr].
  - apply (inject_outcome_maintained m l r v); auto.
    apply inject_cases; auto. apply Hm.
  - unfold inject. destruct (r <=? l) eqn:E; bool_hyps; [exact Hm|lia].
Qed.

(** *** insert and erase(p) *)

(** [emplace] on an absent key adds the node at its place in key order
    and touches nothing else. *)
Lemma map_emplace_absent m k rv :
  (forall e, In e m -> left e <> k) ->
  exists m1 m2, m = m1 ++ m2 /\ map_emplace m k rv = (true, m1 ++ (k, rv) :: m2).
Proof.
  induction m as [|e0 m IH]; simpl; intros Hn.
  - exists [], []. auto.
  - destruct (k <? left e0) eqn:E1.
    + exists [], (e0 :: m). auto.
    + destruct (k =? left e0) eqn:E2; bool_hyps.
      * exfalso. apply (Hn e0); auto.
      * destruct IH as (m1 & m2 & -> & ->); [intros e He; apply Hn; auto|].
        exists (e0 :: m1), m2. auto.
Qed.

(** [erase] of a stored node removes that node and touches nothing else. *)
Lemma map_erase_present m e :
  key_sorted m -> In e m ->
  exists m1 m2, m = m1 ++ e :: m2 /\ map_erase m (left e) = m1 ++ m2.
Proof.
  induction m as [|e0 m IH]; simpl; intros Hs He; [contradiction|].
  apply key_sorted_cons_inv in Hs. destruct Hs as [Hs Hf].
  destruct He as [->|He].
  - rewrite Z.eqb_refl. exists [], m. auto.
  - specialize (Hf _ He). destruct (left e0 =? left e) eqn:E; bool_hyps; [lia|].
    destruct (IH Hs He) as (m1 & m2 & -> & ->). exists (e0 :: m1), m2. auto.
Qed.

(** When [insert] succeeds and when it does not. *)
Lemma insert_cases m l r v :
  maintained m ->
  (l < r
   /\ (forall e, In e m -> ~ contains e l)
   /\ (forall e, In e m -> l <= left e -> r <= left e)
   /\ (forall e, In e m -> left e <> l)
   /\ insert m l r v = map_emplace m l (r, v))
  \/ (~ (l < r
         /\ (forall e, In e m -> ~ contains e l)
         /\ (forall e, In e m -> l <= left e -> r <= left e))
      /\ insert m l r v = (false, m)).
Proof.
  intros Hm. pose proof Hm as (Hs & Hv & Hd). unfold insert.
  destruct (r <=? l) eqn:E0; bool_hyps.
  { right. split; [lia|reflexivity]. }
  pose proof (locate_spec m l Hm) as Hloc.
  destruct (locate m l (lower_bound m l)) as [e|]; simpl it_eqb.
  - right. split; [|reflexivity].
    destruct Hloc as (He & Hle & Hor). intros (_ & Hc & Hlb).
    destruct Hor as [Heq|Hlt].
    + specialize (Hlb _ He). lia.
    + apply (Hc _ He). split; auto.
  - destruct (lower_bound m l) as [lb|] eqn:Elb; simpl andb.
    + destruct (lower_bound_Some _ _ _ Hs Elb) as (Hlb & Hl & Hmin).
      destruct (r <=? left lb) eqn:E1; bool_hyps.
      * left. repeat split; auto; try (intros e He; apply Hloc; exact He).
        intros e He Hle.
        destruct (Z.lt_ge_cases (left e) (left lb)) as [Hlt|Hge]; [|lia].
        specialize (Hmin _ He Hlt). lia.
      * right. split; [|reflexivity]. intros (_ & _ & Hall).
        specialize (Hall _ Hlb Hl). lia.
    + left. pose proof (lower_bound_None _ _ Elb) as Hall.
      repeat split; auto; try (intros e He; apply Hloc; exact He).
      intros e He Hle. specialize (Hall _ He). lia.
Qed.

Lemma insert_maintained m l r v :
  maintained m -> maintained (snd (insert m l r v)).
Proof.
  intros Hm. destruct (insert_cases m l r v Hm) as [(Hlr & Hc & Hlb & Hk & ->)|[_ ->]];
    [|exact Hm].
  destruct Hm as (Hs & Hv & Hd). unfold contains in Hc.
  pose proof (disjoint_curry m Hd) as Hd'. clear Hd.
  maintained_tac m.
Qed.

Lemma map_erase_maintained m k : maintained m -> maintained (map_erase m k).
Proof.
  intros (Hs & Hv & Hd).
  pose proof (disjoint_curry m Hd) as Hd'. clear Hd.
  maintained_tac m.
Qed.

Lemma erase_point_maintained m p :
  maintained m -> maintained (snd (erase_point m p)).
Proof.
  intros Hm. unfold erase_point.
  destruct (locate m p (lower_bound m p)); simpl; auto.
  apply map_erase_maintained, Hm.
Qed.

(** *** erase(l, r) *)

(** The node an iteration takes: the one that starts at the cursor or
    covers it, or else the first one that starts after it. *)
Lemma candidate_spec m x :
  maintained m ->
  match candidate m x with
  | Some e =>
      In e m
      /\ ((left e <= x /\ (x = left e \/ x < right e))
          \/ (x < left e
              /\ forall e', In e' m -> left e' < left e ->
                            left e' < x /\ ~ contains e' x))
  | None => forall e', In e' m -> left e' < x /\ ~ contains e' x
  end.
Proof.
  intros Hm. pose proof Hm as (Hs & Hv & Hd). unfold candidate.
  pose proof (locate_spec m x Hm) as Hloc.
  destruct (locate m x (lower_bound m x)) as [e|]; simpl.
  - destruct Hloc as (He & Hle & Hor). split; auto.
  - destruct (lower_bound m x) as [lb|] eqn:Elb.
    + destruct (lower_bound_Some _ _ _ Hs Elb) as (Hlb & Hl & Hmin).
      split; auto. right.
      destruct (Hloc _ Hlb) as [Hne _]. split; [lia|].
      intros e' He' Hlt. split; [apply Hmin; auto|apply Hloc; auto].
    + pose proof (lower_bound_None _ _ Elb) as Hall.
      intros e' He'. split; [apply Hall; auto|apply Hloc; auto].
Qed.

(** One iteration of the loop of [erase(l, r)], on its candidate. *)
Lemma erase_loop_unfold fuel l r x m :
  erase_loop (S fuel) l r x m =
  match candidate m x with
  | None => Some m
  | Some e =>
      if r <=? left e then Some m
      else if (l <=? left e) && (right e <=? r) then
        erase_loop fuel l r (right e) (map_erase m (left e))
      else if (left e <=? l) && (r <=? right e) then
        Some (snd (inject (set_right m (left e) l) r (right e) (value e)))
      else if (l <=? left e) && (left e <? r) then
        Some (map_erase (snd (map_emplace m r (right e, value e))) (left e))
      else if (l <? right e) && (right e <=? r) then
        erase_loop fuel l r (right e) (set_right m (left e) l)
      else erase_loop fuel l r (right e) m
  end.
Proof.
  unfold candidate. cbn [erase_loop].
  destruct (if it_eqb (locate m x (lower_bound m x)) map_end
            then lower_bound m x
            else locate m x (lower_bound m x)); reflexivity.
Qed.

(** One iteration of the loop of [erase(l, r)]: it stops, or it handles
    one stored node [e] in one of the four ways of the source. *)
Lemma erase_loop_step fuel l r x m :
  maintained m -> l < r -> l <= x ->
  erase_loop (S fuel) l r x m = Some m
  \/ (exists e, In e m /\ l <= left e /\ left e < r /\ right e <= r
        /\ erase_loop (S fuel) l r x m
           = erase_loop fuel l r (right e) (map_erase m (left e)))
  \/ (exists e, In e m /\ left e <= l /\ r <= right e
        /\ erase_loop (S fuel) l r x m
           = Some (snd (inject (set_right m (left e) l) r (right e) (value e))))
  \/ (exists e, In e m /\ l < left e /\ left e < r /\ r < right e
        /\ erase_loop (S fuel) l r x m
           = Some (map_erase (snd (map_emplace m r (right e, value e))) (left e)))
  \/ (exists e, In e m /\ left e < l /\ l < right e /\ right e <= r
        /\ erase_loop (S fuel) l r x m
           = erase_loop fuel l r (right e) (set_right m (left e) l)).
Proof.
  intros Hm Hlr Hx. pose proof Hm as (Hs & Hv & Hd).
  cbn [erase_loop].
  pose proof (locate_spec m x Hm) as Hloc.
  assert (Hsel : match (if it_eqb (locate m x (lower_bound m x)) map_end
                        then lower_bound m x
                        else locate m x (lower_bound m x)) with
                 | Some e => In e m /\ (l <= left e \/ l < right e)
                 | None => True
                 end).
  { destruct (locate m x (lower_bound m x)) as [e|]; simpl.
    - destruct Hloc as (He & Hle & Hor). split; auto. lia.
    - destruct (lower_bound m x) as [lb|] eqn:Elb; auto.
      destruct (lower_bound_Some _ _ _ Hs Elb) as (Hlb & Hl & _).
      split; auto. lia. }
  destruct (if it_eqb (locate m x (lower_bound m x)) map_end
            then lower_bound m x
            else locate m x (lower_bound m x)) as [e|]; [|left; reflexivity].
  destruct Hsel as (He & Hsel). pose proof (Hv _ He).
  destruct (r <=? left e) eqn:E0; [left; reflexivity|].
  destruct ((l <=? left e) && (right e <=? r)) eqn:E1.
  { bool_hyps. right. left. exists e. repeat split; auto. }
  destruct ((left e <=? l) && (r <=? right e)) eqn:E2.
  { bool_hyps. right. right. left. exists e. repeat split; auto. }
  destruct ((l <=? left e) && (left e <? r)) eqn:E3.
  { bool_hyps. right. right. right. left. exists e.
    apply andb_false_iff in E1, E2.
    destruct E1 as [E1|E1], E2 as [E2|E2]; bool_hyps; try lia;
      repeat split; auto; lia. }
  destruct ((l <? right e) && (right e <=? r)) eqn:E4.
  { bool_hyps. right. right. right. right. exists e.
    apply andb_false_iff in E1, E3.
    destruct E1 as [E1|E1], E3 as [E3|E3]; bool_hyps; try lia;
      repeat split; auto; lia. }
  exfalso. bool_hyps.
  apply andb_false_iff in E1, E2, E3, E4.
  destruct E1 as [E1|E1], E2 as [E2|E2], E3 as [E3|E3], E4 as [E4|E4];
    bool_hyps; lia.
Qed.

Lemma set_right_maintained m e x :
  maintained m -> In e m -> left e <= x -> x <= right e ->
  maintained (set_right m (left e) x).
Proof.
  intros (Hs & Hv & Hd) He Hl Hr.
  pose proof (right_unique m Hs) as Hu.
  pose proof (disjoint_curry m Hd) as Hd'. clear Hd.
  maintained_tac m.
Qed.

(** The loop of [erase(l, r)] keeps the maintained invariant. *)
Lemma erase_loop_maintained fuel :
  forall l r x m m',
    maintained m -> l < r -> l <= x ->
    erase_loop fuel l r x m = Some m' -> maintained m'.
Proof.
  induction fuel as [|fuel IH]; intros l r x m m' Hm Hlr Hx Hrun;
    [discriminate|].
  pose proof Hm as (Hs & Hv & Hd).
  destruct (erase_loop_step fuel l r x m Hm Hlr Hx)
    as [E|[(e & He & H1 & H2 & H3 & E)|[(e & He & H1 & H2 & E)
       |[(e & He & H1 & H2 & H3 & E)|(e & He & H1 & H2 & H3 & E)]]]];
    rewrite E in Hrun; try pose proof (Hv _ He) as Hve.
  - injection Hrun as <-. exact Hm.
  - apply (IH l r (right e) (map_erase m (left e))); auto; [|lia].
    apply map_erase_maintained, Hm.
  - injection Hrun as <-. apply inject_maintained.
    apply set_right_maintained; auto. lia.
  - injection Hrun as <-.
    pose proof (right_unique m Hs) as Hu.
    pose proof (disjoint_curry m Hd) as Hd'. clear Hd.
    maintained_tac m.
  - apply (IH l r (right e) (set_right m (left e) l)); auto; [|lia].
    apply set_right_maintained; auto; lia.
Qed.

Lemma erase_range_maintained fuel m l r m' :
  maintained m -> erase_range fuel m l r = Some m' -> maintained m'.
Proof.
  unfold erase_range. intros Hm H.
  destruct (r <=? l) eqn:E; bool_hyps.
  - injection H as <-. exact Hm.
  - apply (erase_loop_maintained fuel l r l m); auto. lia.
Qed.

(** Every state of a [range_map] object satisfies the maintained
    invariant. *)
Lemma maintained_nil : maintained [].
Proof.
  split; [constructor|]. split; [intros e []|intros a b []].
Qed.

Lemma reachable_maintained m : reachable m -> maintained m.
Proof.
  induction 1.
  - apply maintained_nil.
  - apply insert_maintained; auto.
  - apply inject_maintained; auto.
  - apply erase_point_maintained; auto.
  - eapply erase_range_maintained; eauto.
  - apply maintained_nil.
Qed.

Lemma set_right_present m e x :
  key_sorted m -> In e m ->
  exists m1 m2,
    m = m1 ++ e :: m2
    /\ set_right m (left e) x = m1 ++ (left e, (x, value e)) :: m2.
Proof.
  induction m as [|e0 m IH]; simpl; intros Hs He; [contradiction|].
  apply key_sorted_cons_inv in Hs. destruct Hs as [Hs Hf].
  destruct He as [->|He].
  - rewrite Z.eqb_refl. exists [], m. auto.
  - specialize (Hf _ He). destruct (left e0 =? left e) eqn:E; bool_hyps; [lia|].
    destruct (IH Hs He) as (m1 & m2 & -> & ->). exists (e0 :: m1), m2. auto.
Qed.

(** More fuel does not change what the loop returns. *)
Lemma erase_loop_more_fuel fuel :
  forall l r x m m',
    erase_loop fuel l r x m = Some m' ->
    erase_loop (S fuel) l r x m = Some m'.
Proof.
  induction fuel as [|fuel IH]; intros l r x m m' H; [discriminate|].
  remember (S fuel) as f eqn:Ef. cbn [erase_loop]. subst f.
  cbn [erase_loop] in H.
  destruct (if it_eqb (locate m x (lower_bound m x)) map_end
            then lower_bound m x
            else locate m x (lower_bound m x)) as [e|]; [|exact H].
  destruct (r <=? left e); [exact H|].
  destruct ((l <=? left e) && (right e <=? r)); [apply IH; exact H|].
  destruct ((left e <=? l) && (r <=? right e)); [exact H|].
  destruct ((l <=? left e) && (left e <? r)); [exact H|].
  destruct ((l <? right e) && (right e <=? r)); apply IH; exact H.
Qed.

Lemma erase_loop_fuel_le fuel fuel' l r x m m' :
  (fuel <= fuel')%nat ->
  erase_loop fuel l r x m = Some m' ->
  erase_loop fuel' l r x m = Some m'.
Proof.
  induction 1; auto. intros Hrun. apply erase_loop_more_fuel. auto.
Qed.

(** Each iteration that goes on removes a node or cuts a node back to
    [l]: the number of nodes plus the number of nodes that end after [l]
    decreases, which bounds the number of iterations. *)
Lemma erase_loop_terminates fuel :
  forall l r x m,
    maintained m -> l < r -> l <= x ->
    (List.length m + List.length (filter (fun e => (l <? right e)%Z) m) < fuel)%nat ->
    exists m', erase_loop fuel l r x m = Some m'.
Proof.
  induction fuel as [|fuel IH]; intros l r x m Hm Hlr Hx Hfuel; [lia|].
  pose proof Hm as (Hs & Hv & Hd).
  destruct (erase_loop_step fuel l r x m Hm Hlr Hx)
    as [E|[(e & He & H1 & H2 & H3 & E)|[(e & He & H1 & H2 & E)
       |[(e & He & H1 & H2 & H3 & E)|(e & He & H1 & H2 & H3 & E)]]]];
    rewrite E; eauto; pose proof (Hv _ He) as Hve.
  - apply IH; auto; [apply map_erase_maintained, Hm|lia|]. clear E IH.
    destruct (map_erase_present m e Hs He) as (m1 & m2 & Em & ->).
    subst m. rewrite filter_app in Hfuel. rewrite filter_app.
    rewrite !length_app in *. simpl in Hfuel.
    destruct (l <? right e); simpl in Hfuel; lia.
  - apply IH; auto; [apply set_right_maintained; auto; lia|lia|]. clear E IH.
    destruct (set_right_present m e l Hs He) as (m1 & m2 & Em & ->).
    subst m. rewrite filter_app in Hfuel. rewrite filter_app.
    rewrite !length_app in *. simpl in Hfuel. simpl.
    change (right (left e, (l, value e))) with l. rewrite Z.ltb_irrefl.
    destruct (l <? right e) eqn:El; bool_hyps; [|lia].
    simpl in Hfuel. lia.
Qed.

Lemma filter_length_le (f : entry -> bool) m :
  (List.length (filter f m) <= List.length m)%nat.
Proof.
  induction m as [|e m IH]; simpl; auto. destruct (f e); simpl; lia.
Qed.

(** [erase(l, r)] returns: the loop ends within [2 * size + 1]
    iterations. *)
Lemma erase_range_returns m l r :
  maintained m ->
  exists m',
    forall fuel,
      (2 * List.length m + 1 <= fuel)%nat ->
      erase_range fuel m l r = Some m'.
Proof.
  intros Hm. unfold erase_range. destruct (r <=? l) eqn:E; bool_hyps.
  - exists m. reflexivity.
  - pose proof (filter_length_le (fun e => l <? right e) m) as Hle.
    destruct (erase_loop_terminates (2 * List.length m + 1) l r l m Hm)
      as (m' & Hrun); try lia.
    exists m'. intros fuel Hfuel.
    apply (erase_loop_fuel_le (2 * List.length m + 1)); auto.
Qed.

(** The second case of [erase(l, r)]: the node [e1] covers [[l, r)] and
    ends after [r].  Its right end is cut back to [l] and [inject] puts
    the rest [[r, right e1)] back: as a node of its own, or fused with
    the node [en] that starts where [e1] ended and has the same value. *)
Lemma split_inject m e1 l r :
  maintained m -> In e1 m -> left e1 <= l -> l < r -> r < right e1 ->
  let m1 := set_right m (left e1) l in
  (forall e, In e m1 -> left e <> r)
  /\ (snd (inject m1 r (right e1) (value e1))
      = snd (map_emplace m1 r (right e1, value e1))
      \/ exists en,
           In en m /\ left en = right e1 /\ value en = value e1
           /\ snd (inject m1 r (right e1) (value e1))
              = map_erase (snd (map_emplace m1 r (right en, value e1))) (left en)).
Proof.
  intros Hm He1 Hl Hlr Hr m1. pose proof Hm as (Hs & Hv & Hd).
  assert (Hs1 : key_sorted m1) by (apply key_sorted_set_right; exact Hs).
  assert (Hcut : In (left e1, (l, value e1)) m1).
  { apply In_set_right; auto. right. exists e1. auto. }
  assert (Hm1 : forall e, In e m1 ->
            e = (left e1, (l, value e1))
            \/ (In e m /\ left e <> left e1
                /\ (right e <= left e1 \/ right e1 <= left e))).
  { intros e He. apply In_set_right in He; auto.
    destruct He as [[He Hne]|(e0 & He0 & Hk & ->)].
    - right. split; auto. split; auto.
      destruct (Z.lt_ge_cases (left e) (left e1)).
      + left. apply Hd; auto.
      + right. apply Hd; auto. lia.
    - left. rewrite (key_unique m e0 e1 Hs He0 He1 Hk). reflexivity. }
  assert (Hnr : forall e, In e m1 -> left e <> r).
  { intros e He. destruct (Hm1 _ He) as [->|(Hin & Hne & Hor)].
    - arith.
    - pose proof (Hv _ Hin). lia. }
  split; [exact Hnr|].
  assert (Hid : forall ei, In ei m1 -> right ei <= r ->
            (forall e, In e m1 -> left e <= left ei \/ right e1 <= left e) ->
            right ei = l).
  { intros ei Hei Hri Hall. destruct (Hm1 _ Hei) as [->|(Hin & Hne & Hor)]; [reflexivity|].
    pose proof (Hv _ Hin). pose proof (Hall _ Hcut). arith. }
  pose proof (inject_cases m1 r (right e1) (value e1) Hs1 Hr) as Hcase.
  remember (inject m1 r (right e1) (value e1)) as res eqn:Eres.
  destruct Hcase as [e He Hlt Hor | Hnil | ei Hei Hmin Hle | ei Hei Hri Hmax
                     | ei en Hei Hen Hri Hle Hlt Hall]; simpl snd.
  - exfalso. destruct (Hm1 _ He) as [->|(Hin & Hne & Hor')].
    + clear Eres. arith.
    + pose proof (Hv _ Hin). lia.
  - rewrite Hnil in Hcut. destruct Hcut.
  - exfalso. specialize (Hmin _ Hcut). clear Eres. arith.
  - left. assert (right ei = l) as Hl'.
    { apply Hid; auto; intros e He; left; auto. }
    replace (r =? right ei) with false by (symmetry; apply Z.eqb_neq; lia).
    reflexivity.
  - assert (right ei = l) as Hl'.
    { apply Hid; auto; intros e He; destruct (Hall _ He); auto; right; lia. }
    replace (r =? right ei) with false by (symmetry; apply Z.eqb_neq; lia).
    simpl andb. cbv iota.
    destruct ((right e1 =? left en) && value_eqb (value e1) (value en)) eqn:E;
      [|left; reflexivity].
    bool_hyps. right. exists en.
    destruct (Hm1 _ Hen) as [->|(Hin & Hne & Hor)].
    + pose proof (Hv _ He1). clear Eres. arith.
    + apply value_eqb_spec in H0. repeat split; auto.
Qed.

(** What the loop of [erase(l, r)] does to a node [e] that starts at or
    after [r]: nothing, unless [e] starts right where the node [e0]
    covering [[l, r)] ends and has the value of [e0]; then [inject]
    fuses [e] with the rest of [e0] into a node that starts at [r]. *)
Lemma erase_loop_frame fuel :
  forall l r x m m',
    maintained m -> l < r -> l <= x ->
    erase_loop fuel l r x m = Some m' ->
    forall e, In e m -> r <= left e ->
      In e m'
      \/ (In (r, (right e, value e)) m'
          /\ exists e0, In e0 m /\ left e0 <= l /\ r < right e0
                        /\ right e0 = left e /\ value e0 = value e).
Proof.
  induction fuel as [|fuel IH]; intros l r x m m' Hm Hlr Hx Hrun e He Hre;
    [discriminate|].
  pose proof Hm as (Hs & Hv & Hd).
  destruct (erase_loop_step fuel l r x m Hm Hlr Hx)
    as [E|[(e1 & He1 & H1 & H2 & H3 & E)|[(e1 & He1 & H1 & H2 & E)
       |[(e1 & He1 & H1 & H2 & H3 & E)|(e1 & He1 & H1 & H2 & H3 & E)]]]];
    rewrite E in Hrun; clear E; try pose proof (Hv _ He1) as Hve.
  - injection Hrun as <-. left. exact He.
  - assert (He' : In e (map_erase m (left e1)))
      by (apply In_map_erase; auto; split; auto; lia).
    destruct (IH l r (right e1) _ m' (map_erase_maintained m (left e1) Hm)
                Hlr ltac:(lia) Hrun e He' Hre)
      as [Hin|(Hin & e0 & He0 & Hrest)]; auto.
    right. split; auto. exists e0. split; auto.
    apply In_map_erase in He0; auto. apply He0.
  - injection Hrun as <-.
    assert (He' : In e (set_right m (left e1) l))
      by (apply In_set_right; auto; left; split; auto; lia).
    destruct (Z.eq_dec (right e1) r) as [Heq|Hne].
    { left. unfold inject. rewrite Heq, Z.leb_refl. exact He'. }
    destruct (split_inject m e1 l r Hm He1 H1 Hlr ltac:(lia))
      as (Hnr & [->|(en & Hen & Hl & Hval & ->)]).
    + left. apply In_map_emplace; auto with range_map.
    + assert (Hs1 : key_sorted (set_right m (left e1) l))
        by auto with range_map.
      destruct (Z.eq_dec (left e) (left en)) as [Hk|Hk].
      * right. rewrite (key_unique m e en Hs He Hen Hk). split.
        -- rewrite Hval. apply In_map_erase; auto with range_map.
           split; [|unfold left at 1; simpl; lia].
           apply In_map_emplace; auto.
        -- exists e1. repeat split; auto. lia.
      * left. apply In_map_erase; auto with range_map. split; auto.
        apply In_map_emplace; auto.
  - injection Hrun as <-. left.
    apply In_map_erase; auto with range_map. split; [|lia].
    apply In_map_emplace; auto.
  - assert (He' : In e (set_right m (left e1) l))
      by (apply In_set_right; auto; left; split; auto; lia).
    destruct (IH l r (right e1) _ m'
                (set_right_maintained m e1 l Hm He1 ltac:(lia) ltac:(lia))
                Hlr ltac:(lia) Hrun e He' Hre)
      as [Hin|(Hin & e0 & He0 & Ha & Hb & Hc)]; auto.
    right. split; auto. exists e0. split; auto.
    apply In_set_right in He0; auto.
    destruct He0 as [[He0 _]|(e2 & He2 & Hk & ->)]; auto.
    unfold right in Hb at 1. simpl in Hb. lia.
Qed.

(** *** Deciding the invariants; reachable states *)

Lemma nodes_ok_sound strict m :
  nodes_ok strict m = true ->
  key_sorted m
  /\ (forall e, In e m ->
        if strict then left e < right e else left e <= right e)
  /\ pairwise_disjoint m.
Proof.
  induction m as [|e m IH]; simpl; intros H.
  - split; [constructor|]. split; [intros e []|intros a b []].
  - bool_hyps. destruct (IH H0) as (Hs & Hv & Hd).
    rewrite forallb_forall in H1.
    assert (Hf : forall e', In e' m -> left e < left e' /\ right e <= left e').
    { intros e' He'. specialize (H1 _ He'). bool_hyps. auto. }
    split; [|split].
    + apply key_sorted_cons; auto. intros e' He'. apply Hf, He'.
    + intros e' [<-|He']; [destruct strict; bool_hyps; auto|apply Hv, He'].
    + intros a b [<-|Ha] [<-|Hb] Hlt.
      * lia.
      * apply Hf, Hb.
      * specialize (Hf _ Ha). lia.
      * apply Hd; auto.
Qed.

Lemma nodes_ok_maintained m : nodes_ok false m = true -> maintained m.
Proof. apply nodes_ok_sound. Qed.

Lemma nodes_ok_range_map_inv m : nodes_ok true m = true -> range_map_inv m.
Proof. apply nodes_ok_sound. Qed.

(** [inject] succeeds only when [[l, r)] meets no stored interval. *)
Lemma inject_outcome_gap m l r v m' :
  maintained m -> l < r ->
  inject_outcome m l r v (true, m') ->
  forall e, In e m -> right e <= l \/ r <= left e.
Proof.
  intros (Hs & Hv & Hd) Hlr H e He.
  pose proof (right_unique m Hs) as Hu.
  pose proof (disjoint_curry m Hd) as Hd'. clear Hd.
  inversion H; subst; try contradiction; saturate m; lia.
Qed.

(** [emplace] with a key greater than all the keys appends the node. *)
Lemma map_emplace_last m k rv :
  (forall e, In e m -> left e < k) ->
  map_emplace m k rv = (true, m ++ [(k, rv)]).
Proof.
  induction m as [|e m IH]; simpl; intros H; [reflexivity|].
  pose proof (H e (or_introl eq_refl)).
  destruct (k <? left e) eqn:E1; bool_hyps; [lia|].
  destruct (k =? left e) eqn:E2; bool_hyps; [lia|].
  rewrite IH; auto.
Qed.

(** Every state that satisfies the data-model invariant is a state of a
    [range_map] object: [insert] builds it node by node. *)
Lemma range_map_inv_reachable m : range_map_inv m -> reachable m.
Proof.
  induction m as [|e m IH] using rev_ind; intros (Hs & Hv & Hd).
  - apply reach_empty.
  - assert (Hm : range_map_inv m).
    { split; [|split].
      - clear -Hs. induction m as [|e0 m IH]; [constructor|].
        simpl in Hs. apply key_sorted_cons_inv in Hs. destruct Hs as [Hs Hf].
        apply key_sorted_cons; auto. intros e' He'. apply Hf.
        apply in_or_app. auto.
      - intros e' He'. apply Hv, in_or_app. auto.
      - intros a b Ha Hb. apply Hd; apply in_or_app; auto. }
    assert (Hlt : forall e', In e' m -> left e' < left e).
    { clear -Hs. induction m as [|e0 m IH]; intros e' He'; [contradiction|].
      simpl in Hs. apply key_sorted_cons_inv in Hs. destruct Hs as [Hs Hf].
      destruct He' as [<-|He']; auto.
      apply Hf, in_or_app. right. left. reflexivity. }
    assert (He : In e (m ++ [e])) by (apply in_or_app; right; left; reflexivity).
    assert (Hle : forall e', In e' m -> right e' <= left e).
    { intros e' He'. apply Hd; auto. apply in_or_app. auto. }
    pose proof (Hv _ He) as Hve.
    destruct e as [l [r v]]. unfold left, right in Hlt, Hle, Hve. simpl in *.
    assert (Heq : snd (insert m l r v) = m ++ [(l, (r, v))]).
    { destruct (insert_cases m l r v (range_map_inv_maintained _ Hm))
        as [(_ & _ & _ & _ & ->)|[Hno _]].
      - rewrite map_emplace_last; auto.
      - exfalso. apply Hno. split; [exact Hve|]. split.
        + intros e' He' [H1 H2]. specialize (Hle _ He'). arith.
        + intros e' He' H1. specialize (Hlt _ He'). arith. }
    pose proof (reach_insert m l r v (IH Hm)) as X. rewrite Heq in X. exact X.
Qed.

(** *** The data-model invariant *)

Ltac inv_hyps m Hinv :=
  let Hs := fresh "Hs" in
  let Hv := fresh "Hv" in
  let Hd := fresh "Hd" in
  let Hu := fresh "Hu" in
  let Hd' := fresh "Hd'" in
  pose proof Hinv as (Hs & Hv & Hd);
  pose proof (right_unique m Hs) as Hu;
  pose proof (disjoint_curry m Hd) as Hd'; clear Hd.

(** Every outcome of [inject] keeps the data-model invariant. *)
Lemma inject_outcome_inv m l r v res :
  range_map_inv m -> l < r -> inject_outcome m l r v res ->
  range_map_inv (snd res).
Proof.
  intros Hinv Hlr H. inv_hyps m Hinv.
  destruct H as [| Hnil | | |]; simpl snd.
  - exact Hinv.
  - subst m. split; [|split].
    + apply key_sorted_cons; [constructor|]. intros e' [].
    + intros e [<-|[]]. arith.
    + intros a b [<-|[]] [<-|[]]. lia.
  - destruct ((r =? left ei) && value_eqb v (value ei)) eqn:E; bool_hyps;
      maintained_tac m.
  - destruct ((l =? right ei) && value_eqb v (value ei)) eqn:E; bool_hyps;
      maintained_tac m.
  - destruct ((l =? right ei) && value_eqb v (value ei)) eqn:E1;
      destruct ((r =? left en) && value_eqb v (value en)) eqn:E2; bool_hyps;
      maintained_tac m.
Qed.

Lemma inject_inv m l r v :
  range_map_inv m -> range_map_inv (snd (inject m l r v)).
Proof.
  intros Hm. destruct (Z.lt_ge_cases l r) as [Hlr|Hlr].
  - apply (inject_outcome_inv m l r v); auto.
    apply inject_cases; auto. apply Hm.
  - unfold inject. destruct (r <=? l) eqn:E; bool_hyps; [exact Hm|lia].
Qed.

Lemma insert_inv m l r v :
  range_map_inv m -> range_map_inv (snd (insert m l r v)).
Proof.
  intros Hinv.
  destruct (insert_cases m l r v (range_map_inv_maintained _ Hinv))
    as [(Hlr & Hc & Hlb & Hk & ->)|[_ ->]]; [|exact Hinv].
  inv_hyps m Hinv. unfold contains in Hc.
  maintained_tac m.
Qed.

Lemma map_erase_inv m k : range_map_inv m -> range_map_inv (map_erase m k).
Proof. intros Hinv. inv_hyps m Hinv. maintained_tac m. Qed.

Lemma erase_point_inv m p :
  range_map_inv m -> range_map_inv (snd (erase_point m p)).
Proof.
  intros Hm. unfold erase_point.
  destruct (locate m p (lower_bound m p)); simpl; auto.
  apply map_erase_inv, Hm.
Qed.

Lemma set_right_inv m e x :
  range_map_inv m -> In e m -> left e < x -> x <= right e ->
  range_map_inv (set_right m (left e) x).
Proof. intros Hinv He Hl Hr. inv_hyps m Hinv. maintained_tac m. Qed.

(** The loop of [erase(l, r)] on a state that satisfies the data-model
    invariant and in which no node starts at [l] and ends after [r]:
    when every node that starts before the cursor ends by [l] or reaches
    over the cursor, the loop returns a state that satisfies the
    invariant and in which every node ends by [l] or starts at [r] or
    later. *)
Lemma erase_loop_clears fuel :
  forall l r x m m',
    range_map_inv m -> l < r -> l <= x ->
    (forall e, In e m -> left e = l -> right e <= r) ->
    (forall e, In e m -> left e < x -> right e <= l \/ x < right e) ->
    erase_loop fuel l r x m = Some m' ->
    range_map_inv m' /\ forall e, In e m' -> right e <= l \/ r <= left e.
Proof.
  induction fuel as [|fuel IH]; intros l r x m m' Hinv Hlr Hx Hstart Hbefore Hrun;
    [discriminate|].
  rewrite erase_loop_unfold in Hrun.
  pose proof (candidate_spec m x (range_map_inv_maintained _ Hinv)) as Hcand.
  inv_hyps m Hinv. unfold contains in Hcand.
  destruct (candidate m x) as [e1|].
  2:{ injection Hrun as <-. split; [exact Hinv|]. intros e He. arith_sat m. }
  destruct Hcand as (He1 & Hcand).
  destruct (r <=? left e1) eqn:E0.
  { injection Hrun as <-. split; [exact Hinv|]. intros e He. bool_hyps.
    destruct Hcand as [Hc|[Hc Hall]]; arith_sat m. }
  destruct ((l <=? left e1) && (right e1 <=? r)) eqn:E1.
  { bool_hyps.
    apply (IH l r (right e1) (map_erase m (left e1)) m'); auto.
    - apply map_erase_inv, Hinv.
    - pose proof (Hv _ He1). lia.
    - intros e He. origin. auto.
    - intros e He Hlt. origin.
      destruct Hcand as [Hc|[Hc Hall]]; arith_sat m. }
  destruct ((left e1 <=? l) && (r <=? right e1)) eqn:E2.
  { bool_hyps. injection Hrun as <-.
    apply andb_false_iff in E1.
    assert (Hl1 : left e1 < l).
    { destruct E1 as [E1|E1]; bool_hyps; [lia|].
      destruct (Z.eq_dec (left e1) l) as [Heq|Hne]; [|lia].
      specialize (Hstart _ He1 Heq). lia. }
    assert (Hinv1 : range_map_inv (set_right m (left e1) l))
      by (apply set_right_inv; auto; lia).
    split; [apply inject_inv, Hinv1|].
    destruct (Z.eq_dec (right e1) r) as [Heq|Hne].
    { unfold inject. rewrite Heq, Z.leb_refl. simpl.
      intros e He. origin; subst; arith_sat m. }
    destruct (split_inject m e1 l r (range_map_inv_maintained _ Hinv) He1
                ltac:(lia) Hlr ltac:(lia))
      as (_ & [->|(en & Hen & Hl & Hval & ->)]);
      intros e He; origin; subst; arith_sat m. }
  destruct ((l <=? left e1) && (left e1 <? r)) eqn:E3.
  { bool_hyps. injection Hrun as <-.
    apply andb_false_iff in E1, E2.
    assert (Hr1 : r < right e1) by (destruct E1 as [E1|E1]; bool_hyps; lia).
    split.
    - maintained_tac m.
    - intros e He. origin; subst;
        destruct Hcand as [Hc|[Hc Hall]]; arith_sat m. }
  apply andb_false_iff in E1, E2, E3.
  destruct ((l <? right e1) && (right e1 <=? r)) eqn:E4.
  { bool_hyps.
    assert (Hl1 : left e1 < l)
      by (destruct E3 as [E3|E3]; bool_hyps; lia).
    apply (IH l r (right e1) (set_right m (left e1) l) m'); auto.
    - apply set_right_inv; auto. lia.
    - lia.
    - intros e He Heq. origin; subst; [auto|arith].
    - intros e He Hlt. origin; subst; arith_sat m. }
  exfalso. apply andb_false_iff in E4. bool_hyps. pose proof (Hv _ He1).
  destruct Hcand as [Hc|[Hc Hall]];
    destruct E1 as [E1|E1], E2 as [E2|E2], E3 as [E3|E3], E4 as [E4|E4];
    bool_hyps; lia.
Qed.

(** Away from the defect of the second case - that is, when no stored
    node starts at [l] and ends after [r] - [erase(l, r)] keeps the
    data-model invariant and clears every point of [[l, r)]. *)
Lemma erase_range_clears fuel m l r m' :
  range_map_inv m ->
  (forall e, In e m -> left e = l -> right e <= r) ->
  erase_range fuel m l r = Some m' ->
  range_map_inv m'
  /\ forall p, l <= p < r -> lookup m' p = None.
Proof.
  unfold erase_range. intros Hinv Hstart Hrun.
  destruct (r <=? l) eqn:E; bool_hyps.
  - injection Hrun as <-. split; [exact Hinv|]. intros p Hp. lia.
  - destruct (erase_loop_clears fuel l r l m m' Hinv E ltac:(lia) Hstart)
      as (Hinv' & Hclear); auto.
    { intros e He Hlt. lia. }
    split; [exact Hinv'|]. intros p Hp. unfold lookup.
    pose proof (locate_contains m' p Hinv') as Hloc.
    destruct (locate m' p (lower_bound m' p)) as [e|]; [|reflexivity].
    destruct Hloc as (He & Hc1 & Hc2). specialize (Hclear _ He). lia.
Qed.

(** Under the same condition a second [erase(l, r)] changes nothing. *)
Lemma erase_range_idempotent fuel m l r m' :
  range_map_inv m ->
  (forall e, In e m -> left e = l -> right e <= r) ->
  erase_range fuel m l r = Some m' ->
  forall fuel', erase_range (S fuel') m' l r = Some m'.
Proof.
  intros Hinv Hstart Hrun fuel'. unfold erase_range in *.
  destruct (r <=? l) eqn:E; bool_hyps; [reflexivity|].
  destruct (erase_loop_clears fuel l r l m m' Hinv E ltac:(lia) Hstart)
    as (Hinv' & Hclear); auto.
  { intros e He Hlt. lia. }
  rewrite erase_loop_unfold.
  pose proof (candidate_spec m' l (range_map_inv_maintained _ Hinv')) as Hcand.
  destruct (candidate m' l) as [e|]; [|reflexivity].
  destruct Hcand as (He & Hcand).
  destruct Hinv' as (_ & Hv & _). specialize (Hv _ He). specialize (Hclear _ He).
  destruct (r <=? left e) eqn:E0; bool_hyps; [reflexivity|].
  exfalso. destruct Hcand as [Hc|[Hc _]]; lia.
Qed.

(** The state [{[3, 3), [10, 3)}] is not a state of the map - its second
    interval is reversed - and on it the loop of [erase(5, 20)] never
    ends: the cursor goes back to [3] and stays there. *)
Lemma erase_loop_stuck (v : Value) fuel :
  erase_loop fuel 5 20 3 [(3, (3, v))] = None.
Proof.
  induction fuel as [|fuel IH]; [reflexivity|].
  cbn [erase_loop]. simpl. exact IH.
Qed.

Lemma erase_range_diverges (v : Value) fuel :
  erase_range fuel [(3, (3, v)); (10, (3, v))] 5 20 = None.
Proof.
  unfold erase_range. simpl (20 <=? 5). cbv iota.
  destruct fuel as [|fuel]; [reflexivity|].
  cbn [erase_loop]. simpl. apply erase_loop_stuck.
Qed.

(** ** The operations *)

(** C4.  In a state of the map, [insert(l, r, v)] returns [true] exactly
    when [l < r], no stored interval contains [l] and no stored node has
    its left end in [[l, r)] - which is to say that the lower bound of
    [l] is absent or starts at [r] or later.  On success the node
    [[l, r) -> v] is added at its place and nothing else changes, so no
    neighbour is merged even when the ends touch and the values are
    equal; on failure the map is unchanged. *)
Theorem insert_spec m l r v :
  maintained m ->
  let fits :=
    l < r
    /\ (forall e, In e m -> ~ contains e l)
    /\ (forall e, In e m -> l <= left e -> r <= left e) in
  (fst (insert m l r v) = true <-> fits)
  /\ (fits ->
      exists m1 m2,
        m = m1 ++ m2 /\ snd (insert m l r v) = m1 ++ (l, (r, v)) :: m2)
  /\ (~ fits -> insert m l r v = (false, m))
  /\ ((forall e, In e m -> l <= left e -> r <= left e)
      <-> match lower_bound m l with
          | None => True
          | Some lb => r <= left lb
          end).
Proof.
  intros Hm fits. pose proof Hm as (Hs & Hv & Hd).
  assert (Hlb : (forall e, In e m -> l <= left e -> r <= left e)
                <-> match lower_bound m l with
                    | None => True
                    | Some lb => r <= left lb
                    end).
  { destruct (lower_bound m l) as [lb|] eqn:Elb.
    - destruct (lower_bound_Some _ _ _ Hs Elb) as (Hin & Hl & Hmin). split.
      + intros H. apply H; auto.
      + intros H e He Hle.
        destruct (Z.lt_ge_cases (left e) (left lb)) as [Hlt|Hge]; [|lia].
        specialize (Hmin _ He Hlt). lia.
    - pose proof (lower_bound_None _ _ Elb) as Hall. split; auto.
      intros _ e He Hle. specialize (Hall _ He). lia. }
  destruct (insert_cases m l r v Hm) as [(H1 & H2 & H3 & H4 & E)|[Hno E]].
  - assert (Hfits : fits) by (repeat split; auto).
    destruct (map_emplace_absent m l (r, v) H4) as (m1 & m2 & Em & Ee).
    rewrite E, Ee. simpl. split; [|split; [|split]].
    + split; auto.
    + intros _. exists m1, m2. auto.
    + intros Hn. contradiction.
    + exact Hlb.
  - rewrite E. simpl. split; [|split; [|split]].
    + split; [discriminate|]. intros Hf. contradiction.
    + intros Hf. contradiction.
    + reflexivity.
    + exact Hlb.
Qed.

(** C5.  In a state of the map, [inject(l, r, v)] returns [false] and
    leaves the map as it is whenever [r <= l] or [[l, r)] has a point in
    common with a stored interval, as [inject(5, 15, v)] has on the map
    that holds only [[0, 10) -> "A"]. *)
Theorem inject_rejects_overlap m l r v :
  maintained m ->
  r <= l \/ (exists e, In e m /\ overlaps l r e) ->
  inject m l r v = (false, m).
Proof.
  intros Hm [Hrl|(e & He & x & Hx & Hc)].
  - unfold inject. destruct (r <=? l) eqn:E; bool_hyps; [reflexivity|lia].
  - assert (Hlr : l < r) by lia.
    pose proof (inject_cases m l r v (maintained_sorted _ Hm) Hlr) as Hcase.
    destruct (inject m l r v) as [[|] m'].
    + pose proof (inject_outcome_gap m l r v m' Hm Hlr Hcase e He).
      unfold contains in Hc. lia.
    + inversion Hcase. reflexivity.
Qed.

(** C7, amended.  In a state of the map, [erase(l, r)] returns, and it
    leaves every node that starts at or after [r] in the map as it is,
    with one exception: when a stored interval [e0] covers [[l, r)] and
    ends after [r], a node [e] that starts where [e0] ends and has the
    value of [e0] may be fused with the rest of [e0]; the map then holds
    the node [[r, right e)] with that value. *)
Theorem erase_range_frame m l r :
  maintained m ->
  exists m',
    (forall fuel,
        (2 * List.length m + 1 <= fuel)%nat ->
        erase_range fuel m l r = Some m')
    /\ forall e, In e m -> r <= left e ->
         In e m'
         \/ (In (r, (right e, value e)) m'
             /\ exists e0, In e0 m /\ left e0 <= l /\ r < right e0
                           /\ right e0 = left e /\ value e0 = value e).
Proof.
  intros Hm. destruct (erase_range_returns m l r Hm) as (m' & Hrun).
  exists m'. split; [exact Hrun|]. intros e He Hre.
  specialize (Hrun _ (Nat.le_refl _)). unfold erase_range in Hrun.
  destruct (r <=? l) eqn:E; bool_hyps.
  - injection Hrun as <-. left. exact He.
  - apply (erase_loop_frame (2 * List.length m + 1) l r l m m'); auto. lia.
Qed.

(** C8.  [erase(l, r)] terminates in every state of the map: the loop
    returns after at most [2 * size + 1] iterations, and more fuel does
    not change what it returns. *)
Theorem erase_range_terminates m l r :
  reachable m ->
  exists m',
    forall fuel,
      (2 * List.length m + 1 <= fuel)%nat ->
      erase_range fuel m l r = Some m'.
Proof.
  intros Hreach. apply erase_range_returns.
  apply reachable_maintained. exact Hreach.
Qed.

(** Where the data-model invariant holds, [erase(p)]
    returns [true] and removes the node whose interval contains [p],
    leaving all the others as they are, when there is such a node, and
    returns [false] without changing the map when there is none. *)
Theorem erase_point_spec m p :
  range_map_inv m ->
  (forall e, In e m -> contains e p ->
     exists m1 m2, m = m1 ++ e :: m2 /\ erase_point m p = (true, m1 ++ m2))
  /\ ((forall e, In e m -> ~ contains e p) -> erase_point m p = (false, m)).
Proof.
  intros Hinv. pose proof (range_map_inv_maintained _ Hinv) as Hm.
  pose proof (locate_contains m p Hinv) as Hloc. unfold erase_point.
  destruct (locate m p (lower_bound m p)) as [e0|].
  - destruct Hloc as [He0 Hc0]. split.
    + intros e He Hc.
      rewrite (contains_unique m e e0 p Hm He He0 Hc Hc0).
      destruct (map_erase_present m e0 (maintained_sorted _ Hm) He0)
        as (m1 & m2 & Em & Ee).
      exists m1, m2. simpl. rewrite Ee. auto.
    + intros Hno. exfalso. apply (Hno _ He0 Hc0).
  - split; auto. intros e He Hc. exfalso. apply (Hloc _ He Hc).
Qed.

(** Where the data-model invariant holds, [find(p)]
    returns the ends and the value of the stored interval that contains
    [p] when there is one, and the triple [(0, 0, absent)] when there is
    none, whatever intervals the map holds near [0]. *)
Theorem find_spec m p :
  range_map_inv m ->
  (forall e, In e m -> contains e p ->
     find m p = (left e, right e, Some (value e)))
  /\ ((forall e, In e m -> ~ contains e p) -> find m p = (0, 0, None)).
Proof.
  intros Hinv. pose proof (range_map_inv_maintained _ Hinv) as Hm.
  pose proof (locate_contains m p Hinv) as Hloc. unfold find.
  destruct (locate m p (lower_bound m p)) as [e0|].
  - destruct Hloc as [He0 Hc0]. split.
    + intros e He Hc.
      rewrite (contains_unique m e e0 p Hm He He0 Hc Hc0). reflexivity.
    + intros Hno. exfalso. apply (Hno _ He0 Hc0).
  - split; auto. intros e He Hc. exfalso. apply (Hloc _ He Hc).
Qed.

(** ** Further properties *)

(** *** lookup *)

Lemma lookup_maps_to m p w :
  range_map_inv m -> maps_to m p w -> lookup m p = Some w.
Proof.
  intros Hinv (e & He & Hc & Hw). unfold lookup.
  pose proof (locate_contains m p Hinv) as Hloc.
  destruct (locate m p (lower_bound m p)) as [e0|].
  - destruct Hloc as [He0 Hc0].
    rewrite (contains_unique m e0 e p (range_map_inv_maintained _ Hinv)
               He0 He Hc0 Hc), Hw. reflexivity.
  - exfalso. apply (Hloc _ He Hc).
Qed.

Lemma lookup_Some_inv m p w :
  range_map_inv m -> lookup m p = Some w -> maps_to m p w.
Proof.
  intros Hinv. unfold lookup.
  pose proof (locate_contains m p Hinv) as Hloc.
  destruct (locate m p (lower_bound m p)) as [e0|]; [|discriminate].
  intros H. injection H as <-. destruct Hloc as [He0 Hc0]. exists e0. auto.
Qed.

Lemma lookup_None_inv m p :
  range_map_inv m -> lookup m p = None -> forall w, ~ maps_to m p w.
Proof.
  intros Hinv H w Hw. rewrite (lookup_maps_to m p w Hinv Hw) in H.
  discriminate.
Qed.

Lemma lookup_not_maps_to m p :
  range_map_inv m -> (forall w, ~ maps_to m p w) -> lookup m p = None.
Proof.
  intros Hinv Hno. destruct (lookup m p) as [w|] eqn:E; [|reflexivity].
  exfalso. apply (Hno w). apply lookup_Some_inv; auto.
Qed.

(** Two maps that associate the same values with [p] answer [lookup(p)]
    alike. *)
Lemma lookup_ext m m' p :
  range_map_inv m -> range_map_inv m' ->
  (forall w, maps_to m' p w <-> maps_to m p w) ->
  lookup m' p = lookup m p.
Proof.
  intros Hinv Hinv' Heq. destruct (lookup m p) as [w|] eqn:E.
  - apply lookup_maps_to; auto. apply Heq. apply lookup_Some_inv; auto.
  - apply lookup_not_maps_to; auto. intros w Hw.
    apply (lookup_None_inv m p Hinv E w). apply Heq. exact Hw.
Qed.

(** X1.  Every state of the map has its nodes in strictly increasing
    key order, no interval with its right end before its left end, and
    no two intervals that overlap. *)
Theorem reachable_disjoint m :
  reachable m ->
  key_sorted m
  /\ (forall e, In e m -> left e <= right e)
  /\ (forall a b, In a m -> In b m -> left a < left b -> right a <= left b).
Proof. intros H. exact (reachable_maintained m H). Qed.

(** X2.  In a state that satisfies the data-model invariant,
    [lookup(p)] returns the value [w] exactly when a stored interval
    that contains [p] carries [w], and the null pointer exactly when no
    stored interval contains [p]. *)
Theorem lookup_spec m p :
  range_map_inv m ->
  (forall w, lookup m p = Some w <-> maps_to m p w)
  /\ (lookup m p = None <-> forall e, In e m -> ~ contains e p).
Proof.
  intros Hinv. split.
  - intros w. split; [apply lookup_Some_inv|apply lookup_maps_to]; auto.
  - split.
    + intros H e He Hc.
      apply (lookup_None_inv m p Hinv H (value e)). exists e. auto.
    + intros H. apply lookup_not_maps_to; auto.
      intros w (e & He & Hc & _). apply (H e He Hc).
Qed.

(** *** insert *)

(** X3.  In a state that satisfies the data-model invariant, a
    successful [insert(l, r, v)] keeps the invariant, makes [lookup]
    return [v] at every point of [[l, r)] and leaves the answer of
    [lookup] at every other point as it was. *)
Theorem insert_lookup m l r v :
  range_map_inv m ->
  fst (insert m l r v) = true ->
  range_map_inv (snd (insert m l r v))
  /\ (forall p, l <= p < r -> lookup (snd (insert m l r v)) p = Some v)
  /\ (forall p, ~ (l <= p < r) ->
        lookup (snd (insert m l r v)) p = lookup m p).
Proof.
  intros Hinv Hok. pose proof (insert_inv m l r v Hinv) as Hinv'.
  pose proof Hinv as (Hs & _ & _).
  destruct (insert_cases m l r v (range_map_inv_maintained _ Hinv))
    as [(Hlr & Hc & Hlb & Hk & E)|[_ E]];
    [|rewrite E in Hok; discriminate].
  rewrite E in *. clear E Hok.
  assert (Hin : forall e, In e (snd (map_emplace m l (r, v)))
                          <-> In e m \/ e = (l, (r, v))).
  { intros e. rewrite In_map_emplace; auto. split.
    - intros [H|[H _]]; auto.
    - intros [H|H]; auto. }
  split; [exact Hinv'|]. split.
  - intros p Hp. apply lookup_maps_to; auto.
    exists (l, (r, v)). split; [apply Hin; auto|]. split; [exact Hp|reflexivity].
  - intros p Hp. apply lookup_ext; auto. intros w. split.
    + intros (e & He & Hce & Hw). apply Hin in He. destruct He as [He| ->].
      * exists e. auto.
      * exfalso. apply Hp. exact Hce.
    + intros (e & He & Hce & Hw). exists e. split; [apply Hin; auto|auto].
Qed.

(** X4.  In a state of the map, [insert(l, r, v)] returns [false] and
    leaves the map as it is when [[l, r)] has a point in common with a
    stored interval. *)
Theorem insert_rejects_overlap m l r v :
  maintained m ->
  (exists e, In e m /\ overlaps l r e) ->
  insert m l r v = (false, m).
Proof.
  intros Hm (e & He & x & Hx & Hc1 & Hc2).
  destruct (insert_cases m l r v Hm) as [(Hlr & Hc & Hlb & Hk & E)|[_ E]];
    [|exact E].
  exfalso. destruct (Z.le_gt_cases (left e) l) as [Hle|Hgt].
  - apply (Hc e He). split; [exact Hle|lia].
  - specialize (Hlb e He). lia.
Qed.

(** *** erase(p) *)

(** X5.  In a state that satisfies the data-model invariant, when the
    stored interval [e] contains [p], [erase(p)] keeps the invariant,
    makes [lookup] return the null pointer at every point of [e] and
    leaves the answer of [lookup] at every other point as it was. *)
Theorem erase_point_lookup m p e :
  range_map_inv m -> In e m -> contains e p ->
  range_map_inv (snd (erase_point m p))
  /\ (forall q, contains e q -> lookup (snd (erase_point m p)) q = None)
  /\ (forall q, ~ contains e q ->
        lookup (snd (erase_point m p)) q = lookup m q).
Proof.
  intros Hinv He Hc. pose proof (range_map_inv_maintained _ Hinv) as Hm.
  pose proof Hinv as (Hs & _ & _).
  pose proof (erase_point_inv m p Hinv) as Hinv'.
  assert (E : snd (erase_point m p) = map_erase m (left e)).
  { unfold erase_point. pose proof (locate_contains m p Hinv) as Hloc.
    destruct (locate m p (lower_bound m p)) as [e0|].
    - destruct Hloc as [He0 Hc0].
      rewrite (contains_unique m e e0 p Hm He He0 Hc Hc0). reflexivity.
    - exfalso. apply (Hloc _ He Hc). }
  rewrite E in *. split; [exact Hinv'|]. split.
  - intros q Hq. apply lookup_not_maps_to; auto.
    intros w (e' & He' & Hc' & _). apply In_map_erase in He'; auto.
    destruct He' as [He' Hne]. apply Hne. f_equal.
    apply (contains_unique m e' e q Hm He' He Hc' Hq).
  - intros q Hq. apply lookup_ext; auto. intros w. split.
    + intros (e' & He' & Hc' & Hw). apply In_map_erase in He'; auto.
      exists e'. split; [apply He'|auto].
    + intros (e' & He' & Hc' & Hw). exists e'. split; [|auto].
      apply In_map_erase; auto. split; auto.
      intros Hk. apply Hq. rewrite <- (key_unique m e' e Hs He' He Hk).
      exact Hc'.
Qed.

(** *** inject *)

(** A map [m'] that is [m] without the nodes whose keys are in [K] and
    with the node [N] instead, where [N] has the value of the nodes it
    replaces and spans their intervals and [[l, r)]: it associates what
    [m] does, and the value of [N] with the points of [[l, r)]. *)
Lemma fuse_maps_to m m' (K : list Z) (N : entry) l r :
  (forall e', In e' m' <-> (In e' m /\ ~ In (left e') K) \/ e' = N) ->
  (forall e, In e m -> In (left e) K -> value e = value N) ->
  (forall p, contains N p <->
             l <= p < r \/ exists e, In e m /\ In (left e) K /\ contains e p) ->
  forall p w,
    maps_to m' p w <-> (l <= p < r /\ w = value N) \/ maps_to m p w.
Proof.
  intros Hin Hval Hspan p w. split.
  - intros (e' & He' & Hc & Hw). apply Hin in He'.
    destruct He' as [[He' _]| ->].
    + right. exists e'. auto.
    + apply Hspan in Hc. destruct Hc as [Hc|(e & He & Hk & Hc)].
      * left. auto.
      * right. exists e. repeat split; auto; try apply Hc.
        rewrite (Hval e He Hk). exact Hw.
  - intros [[Hp ->]|(e & He & Hc & Hw)].
    + exists N. split; [apply Hin; auto|]. split; [|reflexivity].
      apply Hspan. auto.
    + destruct (in_dec Z.eq_dec (left e) K) as [Hk|Hk].
      * exists N. split; [apply Hin; auto|]. split.
        -- apply Hspan. right. exists e. auto.
        -- rewrite <- (Hval e He Hk). exact Hw.
      * exists e. split; [apply Hin; auto|auto].
Qed.

(** [inject] succeeds when [[l, r)] meets no stored interval. *)
Lemma inject_succeeds m l r v :
  range_map_inv m -> l < r ->
  (forall e, In e m -> right e <= l \/ r <= left e) ->
  fst (inject m l r v) = true.
Proof.
  intros Hinv Hlr Hgap. pose proof Hinv as (Hs & Hv & Hd).
  pose proof (inject_cases m l r v Hs Hlr) as Hcase.
  destruct Hcase as [e He Hlt Hor| | | |]; try reflexivity.
  exfalso. specialize (Hgap _ He). specialize (Hv _ He). lia.
Qed.

Lemma no_overlap_gap m l r :
  range_map_inv m -> l < r ->
  (forall e, In e m -> ~ overlaps l r e) ->
  forall e, In e m -> right e <= l \/ r <= left e.
Proof.
  intros (Hs & Hv & Hd) Hlr Hno e He. specialize (Hv _ He).
  destruct (Z.le_gt_cases (right e) l) as [H1|H1]; auto.
  destruct (Z.le_gt_cases r (left e)) as [H2|H2]; auto.
  exfalso. apply (Hno e He). exists (Z.max l (left e)).
  unfold contains. lia.
Qed.

Lemma emplace_fresh_iff m k rv e' :
  key_sorted m -> (forall e, In e m -> left e <> k) ->
  (In e' (snd (map_emplace m k rv)) <-> (In e' m /\ ~ In (left e') []) \/ e' = (k, rv)).
Proof.
  intros Hs Hk. rewrite In_map_emplace; auto. simpl. tauto.
Qed.

Lemma set_right_iff m ei x e' :
  key_sorted m -> In ei m ->
  (In e' (set_right m (left ei) x)
   <-> (In e' m /\ left e' <> left ei) \/ e' = (left ei, (x, value ei))).
Proof.
  intros Hs Hei. rewrite In_set_right; auto. split.
  - intros [H|(e0 & He0 & Hk & ->)]; auto.
    right. rewrite (key_unique m e0 ei Hs He0 Hei Hk). reflexivity.
  - intros [H| ->]; auto. right. exists ei. auto.
Qed.

Lemma notin1 (k x : Z) : ~ In x [k] <-> x <> k.
Proof. simpl. intuition. Qed.

Lemma notin2 (k1 k2 x : Z) : ~ In x [k1; k2] <-> x <> k1 /\ x <> k2.
Proof. simpl. intuition. Qed.

(** What the map says after a successful [inject(l, r, v)]: what it said
    before, and [v] at the points of [[l, r)]. *)
Lemma inject_outcome_maps_to m l r v m' :
  range_map_inv m -> l < r ->
  inject_outcome m l r v (true, m') ->
  forall p w, maps_to m' p w <-> (l <= p < r /\ w = v) \/ maps_to m p w.
Proof.
  intros Hinv Hlr H. inv_hyps m Hinv.
  remember (true, m') as res eqn:Eres.
  destruct H as [| Hnil | ei Hei Hmin Hle | ei Hei Hri Hmax
                 | ei en Hei Hen Hri Hle Hlt Hall];
    try discriminate; injection Eres as <-.
  - subst m. apply (fuse_maps_to [] _ [] (l, (r, v)) l r).
    + intros e'. simpl. intuition.
    + intros e [].
    + intros p. unfold contains, left, right. simpl. split; auto.
      intros [H|(e & [] & _)]; auto.
  - assert (Hfresh : forall e, In e m -> left e <> l)
      by (intros e He; saturate m; lia).
    destruct ((r =? left ei) && value_eqb v (value ei)) eqn:E; bool_hyps.
    + apply value_eqb_spec in H0.
      apply (fuse_maps_to m _ [left ei] (l, (right ei, v)) l r).
      * intros e'. rewrite In_map_erase by auto with range_map.
        rewrite In_map_emplace by auto. rewrite notin1. split.
        -- intros [[H1|[-> _]] H2]; auto.
        -- intros [[H1 H2]| ->].
           ++ split; auto.
           ++ split; [right; auto|]. unfold left at 1. simpl. lia.
      * intros e He [Hk|[]]. rewrite <- (key_unique m ei e Hs Hei He Hk).
        try (symmetry; exact H0); reflexivity.
      * intros p. unfold contains. change (left (l, (right ei, v))) with l.
        change (right (l, (right ei, v))) with (right ei). split.
        -- intros Hp. destruct (Z.lt_ge_cases p r); [left; lia|].
           right. exists ei. simpl. repeat split; auto; lia.
        -- intros [Hp|(e & He & [Hk|[]] & Hc)].
           ++ saturate m. lia.
           ++ rewrite <- (key_unique m ei e Hs Hei He Hk) in Hc. lia.
    + apply (fuse_maps_to m _ [] (l, (r, v)) l r).
      * intros e'. apply emplace_fresh_iff; auto.
      * intros e He [].
      * intros p. unfold contains, left, right. simpl. split; auto.
        intros [Hp|(e & _ & [] & _)]; auto.
  - assert (Hfresh : forall e, In e m -> left e <> l)
      by (intros e He; saturate m; lia).
    destruct ((l =? right ei) && value_eqb v (value ei)) eqn:E; bool_hyps.
    + apply value_eqb_spec in H0. rewrite H0.
      apply (fuse_maps_to m _ [left ei] (left ei, (r, value ei)) l r).
      * intros e'. rewrite set_right_iff by auto. rewrite notin1. tauto.
      * intros e He [Hk|[]]. rewrite <- (key_unique m ei e Hs Hei He Hk).
        try (symmetry; exact H0); reflexivity.
      * intros p. unfold contains. change (left (left ei, (r, value ei))) with (left ei).
        change (right (left ei, (r, value ei))) with r. split.
        -- intros Hp. destruct (Z.lt_ge_cases p l); [|left; lia].
           right. exists ei. simpl. repeat split; auto; lia.
        -- intros [Hp|(e & He & [Hk|[]] & Hc)].
           ++ saturate m. lia.
           ++ rewrite <- (key_unique m ei e Hs Hei He Hk) in Hc. lia.
    + apply (fuse_maps_to m _ [] (l, (r, v)) l r).
      * intros e'. apply emplace_fresh_iff; auto.
      * intros e He [].
      * intros p. unfold contains, left, right. simpl. split; auto.
        intros [Hp|(e & _ & [] & _)]; auto.
  - assert (Hfresh : forall e, In e m -> left e <> l)
      by (intros e He; arith_sat m).
    destruct ((l =? right ei) && value_eqb v (value ei)) eqn:E1;
      destruct ((r =? left en) && value_eqb v (value en)) eqn:E2; bool_hyps.
    + apply value_eqb_spec in H0, H2. rewrite H2.
      apply (fuse_maps_to m _ [left ei; left en]
               (left ei, (right en, value ei)) l r).
      * intros e'. rewrite In_map_erase by auto with range_map.
        rewrite set_right_iff by auto. rewrite notin2. split.
        -- intros [[[H3 H4]| ->] H5]; auto.
        -- intros [[H3 [H4 H5]]| ->]; auto.
           split; auto. unfold left at 1. simpl. lia.
      * intros e He [Hk|[Hk|[]]].
        -- rewrite <- (key_unique m ei e Hs Hei He Hk). reflexivity.
        -- rewrite <- (key_unique m en e Hs Hen He Hk).
           change (value (left ei, (right en, value ei))) with (value ei).
           congruence.
      * intros p. unfold contains.
        change (left (left ei, (right en, value ei))) with (left ei).
        change (right (left ei, (right en, value ei))) with (right en). split.
        -- intros Hp. destruct (Z.lt_ge_cases p l).
           { right. exists ei. simpl. repeat split; auto; lia. }
           destruct (Z.lt_ge_cases p r); [left; lia|].
           right. exists en. simpl. repeat split; auto; lia.
        -- intros [Hp|(e & He & [Hk|[Hk|[]]] & Hc)].
           ++ saturate m. lia.
           ++ rewrite <- (key_unique m ei e Hs Hei He Hk) in Hc.
              pose proof (Hv _ Hen). lia.
           ++ rewrite <- (key_unique m en e Hs Hen He Hk) in Hc. lia.
    + apply value_eqb_spec in H0. rewrite H0.
      apply (fuse_maps_to m _ [left ei] (left ei, (r, value ei)) l r).
      * intros e'. rewrite set_right_iff by auto. rewrite notin1. tauto.
      * intros e He [Hk|[]]. rewrite <- (key_unique m ei e Hs Hei He Hk).
        reflexivity.
      * intros p. unfold contains. change (left (left ei, (r, value ei))) with (left ei).
        change (right (left ei, (r, value ei))) with r. split.
        -- intros Hp. destruct (Z.lt_ge_cases p l); [|left; lia].
           right. exists ei. simpl. repeat split; auto; lia.
        -- intros [Hp|(e & He & [Hk|[]] & Hc)].
           ++ pose proof (Hv _ Hei). lia.
           ++ rewrite <- (key_unique m ei e Hs Hei He Hk) in Hc. lia.
    + apply value_eqb_spec in H0.
      apply (fuse_maps_to m _ [left en] (l, (right en, v)) l r).
      * intros e'. rewrite In_map_erase by auto with range_map.
        rewrite In_map_emplace by auto. rewrite notin1. split.
        -- intros [[H1|[-> _]] H2]; auto.
        -- intros [[H1 H2]| ->].
           ++ split; auto.
           ++ split; [right; auto|]. unfold left at 1. simpl. lia.
      * intros e He [Hk|[]]. rewrite <- (key_unique m en e Hs Hen He Hk).
        symmetry. exact H0.
      * intros p. unfold contains. change (left (l, (right en, v))) with l.
        change (right (l, (right en, v))) with (right en). split.
        -- intros Hp. destruct (Z.lt_ge_cases p r); [left; lia|].
           right. exists en. simpl. repeat split; auto; lia.
        -- intros [Hp|(e & He & [Hk|[]] & Hc)].
           ++ pose proof (Hv _ Hen). lia.
           ++ rewrite <- (key_unique m en e Hs Hen He Hk) in Hc. lia.
    + apply (fuse_maps_to m _ [] (l, (r, v)) l r).
      * intros e'. apply emplace_fresh_iff; auto.
      * intros e He [].
      * intros p. unfold contains, left, right. simpl. split; auto.
        intros [Hp|(e & _ & [] & _)]; auto.
Qed.

(** X6.  In a state that satisfies the data-model invariant,
    [inject(l, r, v)] returns [true] exactly when [l < r] and [[l, r)]
    has no point in common with a stored interval. *)
Theorem inject_succeeds_iff m l r v :
  range_map_inv m ->
  (fst (inject m l r v) = true
   <-> l < r /\ forall e, In e m -> ~ overlaps l r e).
Proof.
  intros Hinv. pose proof (range_map_inv_maintained _ Hinv) as Hm. split.
  - intros Hok. destruct (Z.lt_ge_cases l r) as [Hlr|Hrl].
    + split; auto. intros e He (x & Hx & Hc1 & Hc2).
      pose proof (inject_cases m l r v (maintained_sorted _ Hm) Hlr) as Hcase.
      destruct (inject m l r v) as [b m']. simpl in Hok. subst b.
      pose proof (inject_outcome_gap m l r v m' Hm Hlr Hcase e He). lia.
    + unfold inject in Hok.
      destruct (r <=? l) eqn:E; bool_hyps; [discriminate|lia].
  - intros [Hlr Hno]. apply inject_succeeds; auto.
    apply no_overlap_gap; auto.
Qed.

(** X7.  In a state that satisfies the data-model invariant, a
    successful [inject(l, r, v)] keeps the invariant, makes [lookup]
    return [v] at every point of [[l, r)] and leaves the answer of
    [lookup] at every other point as it was, whether or not it merges
    the new interval with its neighbours. *)
Theorem inject_lookup m l r v :
  range_map_inv m ->
  fst (inject m l r v) = true ->
  range_map_inv (snd (inject m l r v))
  /\ (forall p, l <= p < r -> lookup (snd (inject m l r v)) p = Some v)
  /\ (forall p, ~ (l <= p < r) ->
        lookup (snd (inject m l r v)) p = lookup m p).
Proof.
  intros Hinv Hok. pose proof (inject_inv m l r v Hinv) as Hinv'.
  assert (Hlr : l < r).
  { destruct (Z.lt_ge_cases l r) as [Hlr|Hrl]; auto.
    unfold inject in Hok.
    destruct (r <=? l) eqn:E; bool_hyps; [discriminate|lia]. }
  pose proof (inject_cases m l r v (proj1 Hinv) Hlr) as Hcase.
  destruct (inject m l r v) as [b m']. simpl in *. subst b.
  pose proof (inject_outcome_maps_to m l r v m' Hinv Hlr Hcase) as Hsem.
  split; [exact Hinv'|]. split.
  - intros p Hp. apply lookup_maps_to; auto. apply Hsem. left. auto.
  - intros p Hp. apply lookup_ext; auto. intros w. rewrite Hsem. split.
    + intros [[H _]|H]; [contradiction|exact H].
    + intros H. right. exact H.
Qed.

(** X8.  In a state that satisfies the data-model invariant, [inject]
    does what [insert] does - the same result and the same map - unless
    a stored interval with the value [v] ends at [l] or starts at [r]. *)
Theorem inject_without_merge m l r v :
  range_map_inv m ->
  (forall e, In e m -> value e = v -> right e <> l /\ left e <> r) ->
  inject m l r v = insert m l r v.
Proof.
  intros Hinv Hnm. pose proof (range_map_inv_maintained _ Hinv) as Hm.
  pose proof Hinv as (Hs & Hv & Hd).
  destruct (Z.lt_ge_cases l r) as [Hlr|Hrl].
  2:{ unfold inject, insert.
      destruct (r <=? l) eqn:E; bool_hyps; [reflexivity|lia]. }
  assert (Hoff : forall e, In e m ->
            (l =? right e) && value_eqb v (value e) = false
            /\ (r =? left e) && value_eqb v (value e) = false).
  { intros e He. destruct (value_eqb v (value e)) eqn:E.
    - apply value_eqb_spec in E. symmetry in E.
      destruct (Hnm e He E) as [H1 H2].
      split; apply andb_false_iff; left; apply Z.eqb_neq; auto.
    - split; apply andb_false_r. }
  pose proof (inject_cases m l r v Hs Hlr) as Hcase.
  destruct (insert_cases m l r v Hm) as [(_ & Hc & Hlb & Hk & E)|[Hno E]];
    rewrite E.
  - assert (Hemp : map_emplace m l (r, v) = (true, snd (map_emplace m l (r, v)))).
    { rewrite <- (map_emplace_true m l (r, v) Hk) at 1.
      destruct (map_emplace m l (r, v)); reflexivity. }
    destruct Hcase as [e He Hlt Hor | Hnil | ei Hei Hmin Hle | ei Hei Hri Hmax
                       | ei en Hei Hen Hri Hle Hlt Hall].
    + exfalso. destruct (Z.le_gt_cases l (left e)) as [H1|H1].
      * specialize (Hlb e He H1). lia.
      * apply (Hc e He). unfold contains. lia.
    + subst m. reflexivity.
    + rewrite (proj2 (Hoff ei Hei)). symmetry. exact Hemp.
    + rewrite (proj1 (Hoff ei Hei)). symmetry. exact Hemp.
    + rewrite (proj1 (Hoff ei Hei)), (proj2 (Hoff en Hen)).
      symmetry. exact Hemp.
  - destruct (inject m l r v) as [[|] m'].
    + exfalso. apply Hno. split; auto.
      pose proof (inject_outcome_gap m l r v m' Hm Hlr Hcase) as Hgap.
      split.
      * intros e He [H1 H2]. specialize (Hgap e He). lia.
      * intros e He H1. specialize (Hgap e He). specialize (Hv e He). lia.
    + inversion Hcase. reflexivity.
Qed.

Lemma andb_eqb_false (a b : Z) (v w : Value) :
  (a =? b) && value_eqb v w = false -> a = b -> w <> v.
Proof.
  intros H Hab Hw. subst. rewrite Z.eqb_refl in H. simpl in H.
  assert (value_eqb v v = true) by (apply value_eqb_spec; reflexivity).
  congruence.
Qed.

(** X9.  In a state that satisfies the data-model invariant, after a
    successful [inject(l, r, v)] the map holds a node [[a, b) -> v]
    where [a] is the left end of the stored interval that ends at [l]
    with the value [v], or [l] when there is none, and [b] is the right
    end of the stored interval that starts at [r] with the value [v],
    or [r] when there is none. *)
Theorem inject_fuses m l r v :
  range_map_inv m ->
  fst (inject m l r v) = true ->
  exists a b,
    In (a, (b, v)) (snd (inject m l r v))
    /\ ((exists e, In e m /\ right e = l /\ value e = v /\ a = left e)
        \/ (a = l /\ forall e, In e m -> right e = l -> value e <> v))
    /\ ((exists e, In e m /\ left e = r /\ value e = v /\ b = right e)
        \/ (b = r /\ forall e, In e m -> left e = r -> value e <> v)).
Proof.
  intros Hinv Hok.
  assert (Hlr : l < r).
  { destruct (Z.lt_ge_cases l r) as [Hlr|Hrl]; auto.
    unfold inject in Hok.
    destruct (r <=? l) eqn:E; bool_hyps; [discriminate|lia]. }
  inv_hyps m Hinv.
  pose proof (inject_cases m l r v Hs Hlr) as Hcase.
  destruct (inject m l r v) as [b0 m']. simpl in *. subst b0.
  remember (true, m') as res eqn:Eres.
  destruct Hcase as [| Hnil | ei Hei Hmin Hle | ei Hei Hri Hmax
                     | ei en Hei Hen Hri Hle Hlt Hall];
    try discriminate; injection Eres as <-.
  - subst m. exists l, r. split; [left; reflexivity|].
    split; right; split; auto; intros e [].
  - assert (Hfresh : forall e, In e m -> left e <> l)
      by (intros e He; saturate m; lia).
    assert (Hnol : forall e, In e m -> right e = l -> value e <> v)
      by (intros e He Hr; exfalso; saturate m; lia).
    destruct ((r =? left ei) && value_eqb v (value ei)) eqn:E.
    + bool_hyps. apply value_eqb_spec in H0. exists l, (right ei). split.
      * apply In_map_erase; auto with range_map.
        split; [|unfold left at 1; simpl; lia].
        apply In_map_emplace; auto.
      * split; [right; auto|]. left. exists ei. auto.
    + exists l, r. split; [apply In_map_emplace; auto|].
      split; [right; auto|]. right. split; auto.
      intros e He Hl.
      assert (e = ei) by (apply (key_unique m); auto; saturate m; lia).
      subst e. apply (andb_eqb_false _ _ _ _ E). auto.
  - assert (Hfresh : forall e, In e m -> left e <> l)
      by (intros e He; saturate m; lia).
    assert (Hnor : forall e, In e m -> left e = r -> value e <> v)
      by (intros e He Hr; exfalso; saturate m; lia).
    destruct ((l =? right ei) && value_eqb v (value ei)) eqn:E.
    + bool_hyps. apply value_eqb_spec in H0. exists (left ei), r. split.
      * rewrite H0. apply set_right_iff; auto.
      * split; [left; exists ei; auto|right; auto].
    + exists l, r. split; [apply In_map_emplace; auto|].
      split; [|right; auto]. right. split; auto.
      intros e He Hl.
      assert (e = ei) by (apply (key_unique m); auto; arith_sat m).
      subst e. apply (andb_eqb_false _ _ _ _ E). auto.
  - assert (Hfresh : forall e, In e m -> left e <> l)
      by (intros e He; arith_sat m).
    assert (Hl' : forall e, In e m -> right e = l -> e = ei)
      by (intros e He Hr; apply (key_unique m); auto; arith_sat m).
    assert (Hr' : forall e, In e m -> left e = r -> e = en)
      by (intros e He Hr; apply (key_unique m); auto; arith_sat m).
    destruct ((l =? right ei) && value_eqb v (value ei)) eqn:E1;
      destruct ((r =? left en) && value_eqb v (value en)) eqn:E2.
    + bool_hyps. apply value_eqb_spec in H0, H2.
      exists (left ei), (right en). split.
      * rewrite H2. apply In_map_erase; auto with range_map.
        split; [|unfold left at 1; simpl; lia].
        apply set_right_iff; auto.
      * split; [left; exists ei; auto|left; exists en; auto].
    + bool_hyps. apply value_eqb_spec in H0. exists (left ei), r. split.
      * rewrite H0. apply set_right_iff; auto.
      * split; [left; exists ei; auto|]. right. split; auto.
        intros e He Hk. rewrite (Hr' e He Hk).
        apply (andb_eqb_false _ _ _ _ E2).
        rewrite <- (Hr' e He Hk). auto.
    + bool_hyps. apply value_eqb_spec in H0. exists l, (right en). split.
      * apply In_map_erase; auto with range_map.
        split; [|unfold left at 1; simpl; lia].
        apply In_map_emplace; auto.
      * split; [|left; exists en; auto]. right. split; auto.
        intros e He Hk. rewrite (Hl' e He Hk).
        apply (andb_eqb_false _ _ _ _ E1).
        rewrite <- (Hl' e He Hk). auto.
    + exists l, r. split; [apply In_map_emplace; auto|]. split; right; split; auto.
      * intros e He Hk. rewrite (Hl' e He Hk).
        apply (andb_eqb_false _ _ _ _ E1).
        rewrite <- (Hl' e He Hk). auto.
      * intros e He Hk. rewrite (Hr' e He Hk).
        apply (andb_eqb_false _ _ _ _ E2).
        rewrite <- (Hr' e He Hk). auto.
Qed.

(** *** erase(l, r) *)

(** Removing the node [e1] changes nothing at the points outside its
    interval. *)
Lemma drop_maps_to m e1 p w :
  key_sorted m -> In e1 m -> ~ contains e1 p ->
  (maps_to (map_erase m (left e1)) p w <-> maps_to m p w).
Proof.
  intros Hs He1 Hp. split.
  - intros (e & He & Hc & Hw). apply In_map_erase in He; auto.
    exists e. split; [apply He|auto].
  - intros (e & He & Hc & Hw). exists e. split; [|auto].
    apply In_map_erase; auto. split; auto.
    intros Hk. apply Hp. rewrite <- (key_unique m e e1 Hs He He1 Hk). exact Hc.
Qed.

(** Replacing the node [e1] by a node [N] of the same value changes
    nothing at the points that both or neither contain. *)
Lemma trim_maps_to m m' e1 N p w :
  key_sorted m -> In e1 m ->
  (forall e', In e' m' <-> (In e' m /\ left e' <> left e1) \/ e' = N) ->
  value N = value e1 ->
  (contains N p <-> contains e1 p) ->
  (maps_to m' p w <-> maps_to m p w).
Proof.
  intros Hs He1 Hin Hval Hp. split.
  - intros (e & He & Hc & Hw). apply Hin in He. destruct He as [[He _]| ->].
    + exists e. auto.
    + exists e1. split; auto. split; [apply Hp; exact Hc|congruence].
  - intros (e & He & Hc & Hw).
    destruct (Z.eq_dec (left e) (left e1)) as [Hk|Hk].
    + rewrite (key_unique m e e1 Hs He He1 Hk) in *.
      exists N. split; [apply Hin; auto|]. split; [apply Hp; exact Hc|congruence].
    + exists e. split; [apply Hin; auto|auto].
Qed.

(** The loop of [erase(l, r)], on a state that satisfies the data-model
    invariant and in which no node starts at [l] and ends after [r],
    changes nothing at the points outside [[l, r)]. *)
Lemma erase_loop_outside fuel :
  forall l r x m m',
    range_map_inv m -> l < r ->
    (forall e, In e m -> left e = l -> right e <= r) ->
    erase_loop fuel l r x m = Some m' ->
    forall p w, ~ (l <= p < r) -> (maps_to m' p w <-> maps_to m p w).
Proof.
  induction fuel as [|fuel IH]; intros l r x m m' Hinv Hlr Hstart Hrun p w Hp;
    [discriminate|].
  rewrite erase_loop_unfold in Hrun.
  pose proof (candidate_spec m x (range_map_inv_maintained _ Hinv)) as Hcand.
  pose proof Hinv as (Hs & Hv & Hd).
  destruct (candidate m x) as [e1|]; [|injection Hrun as <-; tauto].
  destruct Hcand as (He1 & _). pose proof (Hv _ He1) as Hv1.
  destruct (r <=? left e1) eqn:E0; [injection Hrun as <-; tauto|].
  destruct ((l <=? left e1) && (right e1 <=? r)) eqn:E1.
  { bool_hyps.
    rewrite (IH l r (right e1) (map_erase m (left e1)) m'); auto.
    - apply drop_maps_to; auto. unfold contains. lia.
    - apply map_erase_inv, Hinv.
    - intros e He. apply In_map_erase in He; auto. apply Hstart, He. }
  destruct ((left e1 <=? l) && (r <=? right e1)) eqn:E2.
  { bool_hyps. injection Hrun as <-.
    apply andb_false_iff in E1.
    assert (Hl1 : left e1 < l).
    { destruct E1 as [E1|E1]; bool_hyps; [lia|].
      destruct (Z.eq_dec (left e1) l) as [Heq|Hne]; [|lia].
      specialize (Hstart _ He1 Heq). lia. }
    assert (Hinv1 : range_map_inv (set_right m (left e1) l))
      by (apply set_right_inv; auto; lia).
    assert (Hgap : forall e, In e (set_right m (left e1) l) ->
              right e <= r \/ right e1 <= left e).
    { intros e He. inv_hyps m Hinv. origin; subst; arith_sat m. }
    assert (Hcut : forall q u, ~ (l <= q < right e1) ->
              (maps_to (set_right m (left e1) l) q u <-> maps_to m q u)).
    { intros q u Hq.
      apply (trim_maps_to m _ e1 (left e1, (l, value e1))); auto.
      - intros e'. apply set_right_iff; auto.
      - unfold contains. clear IH. arith. }
    destruct (Z.eq_dec (right e1) r) as [Heq|Hne].
    { unfold inject. rewrite Heq, Z.leb_refl. simpl. apply Hcut. lia. }
    assert (Hr1 : r < right e1) by lia.
    pose proof (inject_succeeds _ r (right e1) (value e1) Hinv1 Hr1 Hgap) as Hok.
    pose proof (inject_cases _ r (right e1) (value e1) (proj1 Hinv1) Hr1) as Hcase.
    destruct (inject (set_right m (left e1) l) r (right e1) (value e1))
      as [b m'']. simpl in *. subst b.
    rewrite (inject_outcome_maps_to _ r (right e1) (value e1) m'' Hinv1 Hr1 Hcase).
    destruct (Z.lt_ge_cases p l) as [Hpl|Hpl].
    - rewrite Hcut by lia. split; [intros [[Hin _]|Hin]; [lia|exact Hin]|auto].
    - destruct (Z.lt_ge_cases p (right e1)) as [Hpr|Hpr].
      + split.
        * intros [[_ ->]|(e & He & Hc & _)].
          -- exists e1. unfold contains. repeat split; auto; lia.
          -- exfalso. specialize (Hgap e He). unfold contains in Hc.
             specialize (proj1 (proj2 Hinv1) e He). lia.
        * intros (e & He & Hc & Hw). left. split; [lia|].
          rewrite <- Hw. f_equal.
          apply (contains_unique m e e1 p (range_map_inv_maintained _ Hinv));
            auto. unfold contains. lia.
      + rewrite Hcut by lia. split; [intros [[Hin _]|Hin]; [lia|exact Hin]|auto]. }
  destruct ((l <=? left e1) && (left e1 <? r)) eqn:E3.
  { bool_hyps. injection Hrun as <-.
    apply andb_false_iff in E1.
    assert (Hr1 : r < right e1) by (destruct E1 as [E1|E1]; bool_hyps; lia).
    assert (Hfresh : forall e, In e m -> left e <> r).
    { intros e He. inv_hyps m Hinv. arith_sat m. }
    apply (trim_maps_to m _ e1 (r, (right e1, value e1))); auto.
    - intros e'. rewrite In_map_erase by auto with range_map.
      rewrite In_map_emplace by auto. split.
      + intros [[H1|[-> _]] H2]; auto.
      + intros [[H1 H2]| ->]; [split; auto|].
        split; [right; auto|]. unfold left at 1. simpl. lia.
    - unfold contains. clear IH. arith. }
  destruct ((l <? right e1) && (right e1 <=? r)) eqn:E4.
  { bool_hyps. apply andb_false_iff in E3.
    assert (Hl1 : left e1 < l)
      by (destruct E3 as [E3|E3]; bool_hyps; lia).
    rewrite (IH l r (right e1) (set_right m (left e1) l) m'); auto.
    - apply (trim_maps_to m _ e1 (left e1, (l, value e1))); auto.
      + intros e'. apply set_right_iff; auto.
      + unfold contains. clear IH Hrun. arith.
    - apply set_right_inv; auto. lia.
    - intros e He Heq. apply set_right_iff in He; auto.
      destruct He as [[He _]| ->]; [auto|].
      unfold left in Heq at 1. simpl in Heq. lia. }
  apply (IH l r (right e1) m m'); auto.
Qed.

(** X10.  In a state that satisfies the data-model invariant and in
    which no stored interval starts at [l] and ends after [r],
    [erase(l, r)] returns a state that satisfies the invariant, in which
    [lookup] returns the null pointer at every point of [[l, r)] and
    what it returned before at every other point: the intervals that
    reach into [[l, r)] are trimmed, not dropped. *)
Theorem erase_range_lookup m l r :
  range_map_inv m ->
  (forall e, In e m -> left e = l -> right e <= r) ->
  exists m',
    (forall fuel,
        (2 * List.length m + 1 <= fuel)%nat ->
        erase_range fuel m l r = Some m')
    /\ range_map_inv m'
    /\ forall p,
         lookup m' p = if (l <=? p) && (p <? r) then None else lookup m p.
Proof.
  intros Hinv Hstart.
  destruct (erase_range_returns m l r (range_map_inv_maintained _ Hinv))
    as (m' & Hrun).
  exists m'. split; [exact Hrun|].
  specialize (Hrun _ (Nat.le_refl _)).
  destruct (erase_range_clears _ m l r m' Hinv Hstart Hrun) as (Hinv' & Hclear).
  split; [exact Hinv'|]. intros p.
  destruct ((l <=? p) && (p <? r)) eqn:E.
  - bool_hyps. apply Hclear. lia.
  - assert (Hp : ~ (l <= p < r)).
    { intros [H1 H2]. apply Z.leb_le in H1. apply Z.ltb_lt in H2.
      rewrite H1, H2 in E. discriminate. }
    unfold erase_range in Hrun. destruct (r <=? l) eqn:Erl; bool_hyps.
    + injection Hrun as <-. reflexivity.
    + apply lookup_ext; auto. intros w.
      apply (erase_loop_outside (2 * List.length m + 1) l r l m m'); auto.
Qed.

(** X11.  Under the same conditions a second [erase(l, r)] returns the
    state the first one returned. *)
Theorem erase_range_twice m l r :
  range_map_inv m ->
  (forall e, In e m -> left e = l -> right e <= r) ->
  exists m',
    (forall fuel,
        (2 * List.length m + 1 <= fuel)%nat ->
        erase_range fuel m l r = Some m')
    /\ forall fuel, (0 < fuel)%nat -> erase_range fuel m' l r = Some m'.
Proof.
  intros Hinv Hstart.
  destruct (erase_range_returns m l r (range_map_inv_maintained _ Hinv))
    as (m' & Hrun).
  exists m'. split; [exact Hrun|]. intros [|fuel] Hfuel; [lia|].
  apply (erase_range_idempotent (2 * List.length m + 1) m l r m'); auto.
Qed.

(** X12.  In a state that satisfies the data-model invariant,
    [erase(l, r)] returns at its first iteration and leaves the map as
    it is when [[l, r)] has no point in common with a stored interval. *)
Theorem erase_range_uncovered m l r fuel :
  range_map_inv m ->
  (forall e, In e m -> ~ overlaps l r e) ->
  erase_range (S fuel) m l r = Some m.
Proof.
  intros Hinv Hno. unfold erase_range.
  destruct (r <=? l) eqn:E; bool_hyps; [reflexivity|].
  pose proof (no_overlap_gap m l r Hinv E Hno) as Hgap.
  rewrite erase_loop_unfold.
  pose proof (candidate_spec m l (range_map_inv_maintained _ Hinv)) as Hcand.
  destruct (candidate m l) as [e|]; [|reflexivity].
  destruct Hcand as (He & Hcand).
  destruct Hinv as (_ & Hv & _). specialize (Hv _ He). specialize (Hgap _ He).
  destruct (r <=? left e) eqn:E0; bool_hyps; [reflexivity|].
  exfalso. destruct Hcand as [Hc|[Hc _]]; lia.
Qed.

(** X13.  In a state that satisfies the data-model invariant, when the
    stored interval [e] starts at [l] and ends after [r], [erase(l, r)]
    returns at its first iteration a state that holds the empty node
    [[l, l)] with the value of [e]: [lookup(l)] still returns that
    value, and the state does not satisfy the invariant. *)
Theorem erase_range_leaves_empty_node m l r e fuel :
  range_map_inv m ->
  In e m -> left e = l -> l < r -> r < right e ->
  exists m',
    erase_range (S fuel) m l r = Some m'
    /\ In (l, (l, value e)) m'
    /\ lookup m' l = Some (value e)
    /\ ~ range_map_inv m'.
Proof.
  intros Hinv He Hl Hlr Hr.
  pose proof (range_map_inv_maintained _ Hinv) as Hm.
  pose proof Hinv as (Hs & Hv & Hd).
  assert (Hrun : erase_range (S fuel) m l r
                 = Some (snd (inject (set_right m (left e) l) r (right e) (value e)))).
  { unfold erase_range. destruct (r <=? l) eqn:E; bool_hyps; [lia|].
    rewrite erase_loop_unfold.
    pose proof (candidate_spec m l Hm) as Hcand.
    assert (Hc : candidate m l = Some e).
    { destruct (candidate m l) as [e1|].
      - destruct Hcand as (He1 & [Hc|[Hc Hall]]).
        + f_equal. pose proof (Hv _ He1).
          apply (contains_unique m e1 e l Hm); auto; unfold contains; lia.
        + destruct (Hall e He); lia.
      - destruct (Hcand e He). lia. }
    rewrite Hc.
    destruct (r <=? left e) eqn:E0; bool_hyps; [lia|].
    destruct ((l <=? left e) && (right e <=? r)) eqn:E1; bool_hyps; [lia|].
    destruct ((left e <=? l) && (r <=? right e)) eqn:E2; [reflexivity|].
    apply andb_false_iff in E2. destruct E2; bool_hyps; lia. }
  exists (snd (inject (set_right m (left e) l) r (right e) (value e))).
  split; [exact Hrun|].
  pose proof (erase_range_maintained _ m l r _ Hm Hrun) as Hm'.
  assert (Hnode : In (l, (l, value e))
                    (snd (inject (set_right m (left e) l) r (right e) (value e)))).
  { assert (Hcut : In (l, (l, value e)) (set_right m (left e) l))
      by (rewrite <- Hl at 1; apply set_right_iff; auto).
    destruct (split_inject m e l r Hm He ltac:(lia) Hlr Hr)
      as (Hnr & [->|(en & Hen & Hk & Hval & ->)]).
    - apply In_map_emplace; auto with range_map.
    - apply In_map_erase; auto with range_map.
      split; [|unfold left at 1; simpl; lia].
      apply In_map_emplace; auto with range_map. }
  split; [exact Hnode|]. split.
  - unfold lookup. pose proof (locate_spec _ l Hm') as Hloc.
    destruct (locate _ l (lower_bound _ l)) as [e0|].
    + destruct Hloc as (He0 & Hle & Hor).
      destruct Hm' as (Hs' & Hv' & Hd').
      destruct (Z.eq_dec (left e0) l) as [Heq|Hne].
      * rewrite (key_unique _ e0 (l, (l, value e)) Hs' He0 Hnode Heq).
        reflexivity.
      * exfalso. assert (right e0 <= l).
        { apply (Hd' e0 (l, (l, value e))); auto.
          unfold left at 2. simpl. lia. }
        lia.
    + exfalso. destruct (Hloc _ Hnode) as [Hne _]. apply Hne. reflexivity.
  - intros (_ & Hv' & _). specialize (Hv' _ Hnode).
    unfold left, right in Hv'. simpl in Hv'. lia.
Qed.

(** *** size *)

Lemma length_map_erase m k :
  (List.length (map_erase m k) <= List.length m
   /\ List.length m <= S (List.length (map_erase m k)))%nat.
Proof.
  induction m as [|e m IH]; simpl; [lia|].
  destruct (left e =? k); simpl; lia.
Qed.

Lemma length_set_right m k x :
  List.length (set_right m k x) = List.length m.
Proof.
  induction m as [|e m IH]; simpl; [reflexivity|].
  destruct (left e =? k); simpl; auto.
Qed.

Lemma length_map_emplace m k rv :
  List.length (snd (map_emplace m k rv))
  = if fst (map_emplace m k rv) then S (List.length m) else List.length m.
Proof.
  induction m as [|e m IH]; simpl; [reflexivity|].
  destruct (k <? left e); [reflexivity|].
  destruct (k =? left e); [reflexivity|].
  destruct (map_emplace m k rv) as [b m'']. simpl in *.
  rewrite IH. destruct b; reflexivity.
Qed.

Lemma length_map_emplace_le m k rv :
  (List.length m <= List.length (snd (map_emplace m k rv))
   /\ List.length (snd (map_emplace m k rv)) <= S (List.length m))%nat.
Proof.
  rewrite length_map_emplace. destruct (fst (map_emplace m k rv)); lia.
Qed.

Lemma inject_size_bounds m l r v :
  key_sorted m ->
  (size m <= S (size (snd (inject m l r v)))
   /\ size (snd (inject m l r v)) <= S (size m))%nat.
Proof.
  intros Hs. unfold size. destruct (Z.lt_ge_cases l r) as [Hlr|Hrl].
  2:{ unfold inject. destruct (r <=? l) eqn:E; bool_hyps; simpl; lia. }
  pose proof (inject_cases m l r v Hs Hlr) as Hcase.
  destruct Hcase as [e He Hlt Hor | Hnil | ei Hei Hmin Hle | ei Hei Hri Hmax
                     | ei en Hei Hen Hri Hle Hlt Hall]; simpl snd.
  - lia.
  - subst m. simpl. lia.
  - destruct ((r =? left ei) && value_eqb v (value ei)).
    + pose proof (length_map_erase (snd (map_emplace m l (right ei, v))) (left ei)).
      pose proof (length_map_emplace_le m l (right ei, v)).
      assert (Hin : In ei (snd (map_emplace m l (right ei, v))))
        by (apply In_map_emplace; auto).
      destruct (map_erase_present _ ei (key_sorted_map_emplace m l (right ei, v) Hs) Hin)
        as (m1 & m2 & Em & Ee).
      rewrite Ee in *. rewrite Em in *. rewrite !length_app in *. simpl in *. lia.
    + pose proof (length_map_emplace_le m l (r, v)). lia.
  - destruct ((l =? right ei) && value_eqb v (value ei)).
    + rewrite length_set_right. lia.
    + pose proof (length_map_emplace_le m l (r, v)). lia.
  - destruct ((l =? right ei) && value_eqb v (value ei));
      destruct ((r =? left en) && value_eqb v (value en)).
    + pose proof (length_map_erase (set_right m (left ei) (right en)) (left en)).
      rewrite length_set_right in *. lia.
    + rewrite length_set_right. lia.
    + pose proof (length_map_emplace_le m l (right en, v)).
      assert (Hin : In en (snd (map_emplace m l (right en, v))))
        by (apply In_map_emplace; auto).
      destruct (map_erase_present _ en (key_sorted_map_emplace m l (right en, v) Hs) Hin)
        as (m1 & m2 & Em & Ee).
      rewrite Ee in *. rewrite Em in *. rewrite !length_app in *. simpl in *. lia.
    + pose proof (length_map_emplace_le m l (r, v)). lia.
Qed.

(** X14.  In a state of the map, [insert] adds one node when it returns
    [true] and none when it returns [false], and [erase(p)] removes one
    node when it returns [true] and none when it returns [false]. *)
Theorem size_insert_erase_point m :
  maintained m ->
  (forall l r v,
      size (snd (insert m l r v))
      = if fst (insert m l r v) then S (size m) else size m)
  /\ (forall p,
        size m
        = if fst (erase_point m p)
          then S (size (snd (erase_point m p)))
          else size (snd (erase_point m p))).
Proof.
  intros Hm. pose proof Hm as (Hs & _ & _). unfold size. split.
  - intros l r v.
    destruct (insert_cases m l r v Hm) as [(_ & _ & _ & Hk & E)|[_ E]];
      rewrite E; [|reflexivity].
    apply length_map_emplace.
  - intros p. unfold erase_point.
    pose proof (locate_spec m p Hm) as Hloc.
    destruct (locate m p (lower_bound m p)) as [e|]; simpl; [|reflexivity].
    destruct Hloc as (He & _).
    destruct (map_erase_present m e Hs He) as (m1 & m2 & Em & ->).
    rewrite Em at 1. rewrite !length_app. simpl. lia.
Qed.

(** X15.  In a state of the map, [inject] changes the number of nodes by
    at most one - it adds a node, or extends one, or fuses two - and
    [erase(l, r)] returns a map with at most one node more: only the
    split of an interval that covers [[l, r)] adds a node. *)
Theorem size_inject_erase_range m :
  maintained m ->
  (forall l r v,
      (size m <= S (size (snd (inject m l r v)))
       /\ size (snd (inject m l r v)) <= S (size m))%nat)
  /\ (forall l r,
        exists m',
          (forall fuel,
              (2 * List.length m + 1 <= fuel)%nat ->
              erase_range fuel m l r = Some m')
          /\ (size m' <= S (size m))%nat).
Proof.
  intros Hm. split.
  - intros l r v. apply inject_size_bounds. apply Hm.
  - intros l r. destruct (erase_range_returns m l r Hm) as (m' & Hrun).
    exists m'. split; [exact Hrun|].
    specialize (Hrun _ (Nat.le_refl _)). unfold erase_range in Hrun.
    destruct (r <=? l) eqn:E; bool_hyps.
    { injection Hrun as <-. lia. }
    revert Hrun. generalize (2 * List.length m + 1)%nat as fuel.
    assert (Hx : l <= l) by lia. revert Hx. generalize l at 2 4 as x.
    intros x Hx fuel. revert x m m' Hm Hx.
    induction fuel as [|fuel IH]; intros x m m' Hm Hx Hrun; [discriminate|].
    pose proof Hm as (Hs & Hv & Hd). unfold size in *.
    destruct (erase_loop_step fuel l r x m Hm E Hx)
      as [E'|[(e & He & H1 & H2 & H3 & E')|[(e & He & H1 & H2 & E')
         |[(e & He & H1 & H2 & H3 & E')|(e & He & H1 & H2 & H3 & E')]]]];
      rewrite E' in Hrun; clear E'; try pose proof (Hv _ He) as Hve.
    + injection Hrun as <-. lia.
    + apply IH in Hrun; [|apply map_erase_maintained; auto|lia].
      destruct (map_erase_present m e Hs He) as (m1 & m2 & Em & Ee).
      rewrite Ee in Hrun. rewrite Em. rewrite !length_app in *. simpl. lia.
    + injection Hrun as <-.
      pose proof (inject_size_bounds (set_right m (left e) l) r (right e)
                    (value e) (key_sorted_set_right m (left e) l Hs)) as Hb.
      unfold size in Hb. rewrite length_set_right in Hb. lia.
    + injection Hrun as <-.
      pose proof (length_map_emplace_le m r (right e, value e)).
      assert (Hin : In e (snd (map_emplace m r (right e, value e))))
        by (apply In_map_emplace; auto).
      destruct (map_erase_present _ e
                  (key_sorted_map_emplace m r (right e, value e) Hs) Hin)
        as (m1 & m2 & Em & Ee).
      rewrite Ee. rewrite Em in *. rewrite !length_app in *. simpl in *. lia.
    + apply IH in Hrun; [|apply set_right_maintained; auto; lia|lia].
      rewrite length_set_right in Hrun. exact Hrun.
Qed.

(** *** Iteration *)

(** X16.  In a state of the map, a loop from [begin()] to [end()] sees
    the triples [(left, right, value)] in strictly increasing order of
    their left ends, each interval ending where the next one starts or
    before. *)
Theorem traverse_ascending m :
  reachable m ->
  StronglySorted
    (fun a b => fst (fst a) < fst (fst b) /\ snd (fst a) <= fst (fst b))
    (traverse m).
Proof.
  intros Hr. destruct (reachable_maintained m Hr) as (Hs & _ & Hd).
  clear Hr. induction m as [|e m IH]; simpl; [constructor|].
  apply key_sorted_cons_inv in Hs. destruct Hs as [Hs Hf].
  constructor.
  - apply IH; auto. intros a b Ha Hb. apply Hd; right; auto.
  - apply Forall_forall. intros t Ht. unfold traverse in Ht.
    apply in_map_iff in Ht. destruct Ht as (e' & <- & He'). simpl.
    split; [apply Hf; auto|].
    apply Hd; [left; auto|right; auto|apply Hf; auto].
Qed.

(** X17.  In a state of the map, every triple [(a, b, v)] the loop sees
    is the answer of [find(a)]. *)
Theorem traverse_find m a b v :
  reachable m ->
  In (a, b, v) (traverse m) ->
  find m a = (a, b, Some v).
Proof.
  intros Hr Ht. pose proof (reachable_maintained m Hr) as Hm.
  pose proof Hm as (Hs & Hv & Hd).
  apply in_map_iff in Ht. destruct Ht as (e & Ee & He).
  unfold dereference in Ee. injection Ee as <- <- <-.
  unfold find. pose proof (locate_spec m (left e) Hm) as Hloc.
  destruct (locate m (left e) (lower_bound m (left e))) as [e0|].
  - destruct Hloc as (He0 & Hle & Hor).
    assert (e0 = e) as ->; [|reflexivity].
    apply (key_unique m); auto.
    destruct Hor as [Heq|Hlt]; [auto|].
    destruct (Z.eq_dec (left e0) (left e)) as [Hk|Hk]; [auto|].
    assert (right e0 <= left e) by (apply Hd; auto; lia). lia.
  - exfalso. destruct (Hloc e He) as [Hne _]. apply Hne. reflexivity.
Qed.

(** *** Reachable states *)

(** X18.  Every list of intervals in strictly increasing key order whose
    intervals are not empty and do not overlap is a state of the map:
    [insert] builds it, node by node. *)
Theorem valid_state_reachable m :
  range_map_inv m -> reachable m.
Proof. apply range_map_inv_reachable. Qed.

(** The loop of [erase(l, r)] in any state of the map: when every node
    that starts before the cursor ends by [l] or reaches over the
    cursor, every node of the state it returns ends by [l] or starts at
    [r] or later. *)
Lemma erase_loop_clears_any fuel :
  forall l r x m m',
    maintained m -> l < r -> l <= x ->
    (forall e, In e m -> left e < x -> right e <= l \/ x < right e) ->
    erase_loop fuel l r x m = Some m' ->
    forall e, In e m' -> right e <= l \/ r <= left e.
Proof.
  induction fuel as [|fuel IH]; intros l r x m m' Hm Hlr Hx Hbefore Hrun;
    [discriminate|].
  rewrite erase_loop_unfold in Hrun.
  pose proof (candidate_spec m x Hm) as Hcand.
  inv_hyps m Hm. unfold contains in Hcand.
  destruct (candidate m x) as [e1|].
  2:{ injection Hrun as <-. intros e He. arith_sat m. }
  destruct Hcand as (He1 & Hcand).
  destruct (r <=? left e1) eqn:E0.
  { injection Hrun as <-. intros e He. bool_hyps.
    destruct Hcand as [Hc|[Hc Hall]]; arith_sat m. }
  destruct ((l <=? left e1) && (right e1 <=? r)) eqn:E1.
  { bool_hyps.
    apply (IH l r (right e1) (map_erase m (left e1)) m'); auto.
    - apply map_erase_maintained, Hm.
    - pose proof (Hv _ He1). lia.
    - intros e He Hlt. origin.
      destruct Hcand as [Hc|[Hc Hall]]; arith_sat m. }
  destruct ((left e1 <=? l) && (r <=? right e1)) eqn:E2.
  { bool_hyps. injection Hrun as <-.
    destruct (Z.eq_dec (right e1) r) as [Heq|Hne].
    { unfold inject. rewrite Heq, Z.leb_refl. simpl.
      intros e He. origin; subst; arith_sat m. }
    destruct (split_inject m e1 l r Hm He1 ltac:(lia) Hlr ltac:(lia))
      as (_ & [->|(en & Hen & Hl & Hval & ->)]);
      intros e He; origin; subst; arith_sat m. }
  destruct ((l <=? left e1) && (left e1 <? r)) eqn:E3.
  { bool_hyps. injection Hrun as <-.
    apply andb_false_iff in E1, E2.
    assert (Hr1 : r < right e1) by (destruct E1 as [E1|E1]; bool_hyps; lia).
    intros e He. origin; subst;
      destruct Hcand as [Hc|[Hc Hall]]; arith_sat m. }
  apply andb_false_iff in E1, E2, E3.
  destruct ((l <? right e1) && (right e1 <=? r)) eqn:E4.
  { bool_hyps.
    assert (Hl1 : left e1 < l)
      by (destruct E3 as [E3|E3]; bool_hyps; lia).
    apply (IH l r (right e1) (set_right m (left e1) l) m'); auto.
    - apply set_right_maintained; auto; lia.
    - lia.
    - intros e He Hlt. origin; subst; arith_sat m. }
  exfalso. apply andb_false_iff in E4. bool_hyps. pose proof (Hv _ He1).
  destruct Hcand as [Hc|[Hc Hall]];
    destruct E1 as [E1|E1], E2 as [E2|E2], E3 as [E3|E3], E4 as [E4|E4];
    bool_hyps; lia.
Qed.

(** X19.  In every state of the map, [erase(l, r)] returns a map in
    which every stored interval ends at [l] or before, or starts at [r]
    or later: no stored interval contains a point of [[l, r)]. *)
Theorem erase_range_no_interval_left m l r :
  reachable m -> l < r ->
  exists m',
    (forall fuel,
        (2 * List.length m + 1 <= fuel)%nat ->
        erase_range fuel m l r = Some m')
    /\ (forall e, In e m' -> right e <= l \/ r <= left e)
    /\ (forall e p, In e m' -> l <= p < r -> ~ contains e p).
Proof.
  intros Hr Hlr. pose proof (reachable_maintained m Hr) as Hm.
  destruct (erase_range_returns m l r Hm) as (m' & Hrun).
  exists m'. split; [exact Hrun|].
  specialize (Hrun _ (Nat.le_refl _)). unfold erase_range in Hrun.
  destruct (r <=? l) eqn:E; bool_hyps; [lia|].
  assert (Hclear : forall e, In e m' -> right e <= l \/ r <= left e).
  { apply (erase_loop_clears_any (2 * List.length m + 1) l r l m m'); auto.
    - lia.
    - intros e He Hlt. lia. }
  split; [exact Hclear|].
  intros e p He Hp [Hc1 Hc2]. specialize (Hclear e He). lia.
Qed.

End RangeMap.

Arguments left {Value} e.
Arguments right {Value} e.
Arguments value {Value} e.
Arguments contains {Value} e p.
Arguments overlaps {Value} l r e.
Arguments key_sorted {Value} m.
Arguments pairwise_disjoint {Value} m.
Arguments maintained {Value} m.
Arguments range_map_inv {Value} m.
Arguments nodes_ok {Value} strict m.
Arguments reachable {Value} value_eqb m.
Arguments lower_bound {Value} m x.
Arguments locate {Value} m p lb.
Arguments insert {Value} m l r v.
Arguments inject {Value} value_eqb m l r v.
Arguments erase_point {Value} m p.
Arguments erase_loop {Value} value_eqb fuel l r next_left m.
Arguments erase_range {Value} value_eqb fuel m l r.
Arguments lookup {Value} m p.
Arguments find {Value} m p.
Arguments size {Value} m.
Arguments clear {Value} m.
Arguments maps_to {Value} m p w.
Arguments dereference {Value} e.
Arguments traverse {Value} m.

(** ** The operations on maps of strings *)

(** C1.  The state that [insert(0, 20, "A")] and then [erase(0, 10)]
    produce from the empty map is a state of the map, and it stores the
    interval [[0, 0)], whose left end is not less than its right end: the
    second case of [erase(l, r)] cuts a node that starts at [l] back to
    [[l, l)] and keeps it. *)
Theorem erase_range_stores_empty_interval :
  erase_range String.eqb 3 (snd (insert [] 0 20 A)) 0 10
  = Some [(0, (0, A)); (10, (20, A))]
  /\ reachable String.eqb [(0, (0, A)); (10, (20, A))]
  /\ In (0, (0, A)) [(0, (0, A)); (10, (20, A))]
  /\ ~ range_map_inv [(0, (0, A)); (10, (20, A))].
Proof.
  split; [reflexivity|]. split; [|split].
  - apply (reach_erase_range string String.eqb
             (snd (insert [] 0 20 A)) 0 10 3).
    + apply reach_insert. apply reach_empty.
    + reflexivity.
  - left. reflexivity.
  - intros (_ & Hv & _).
    specialize (Hv (0, (0, A)) (or_introl eq_refl)).
    unfold left, right in Hv. simpl in Hv. lia.
Qed.

(** C2.  On the map that holds only [[0, 20) -> "A"], which satisfies
    the data-model invariant, [erase(0, 10)] returns a map in which
    [lookup(0)] still finds ["A"], although [0] lies in [[0, 10)]. *)
Theorem erase_range_leaves_left_end :
  range_map_inv [(0, (20, A))]
  /\ exists m',
       erase_range String.eqb 3 [(0, (20, A))] 0 10 = Some m'
       /\ 0 <= 0 < 10
       /\ lookup m' 0 = Some A.
Proof.
  split; [apply nodes_ok_range_map_inv; reflexivity|].
  exists [(0, (0, A)); (10, (20, A))].
  split; [reflexivity|]. split; [lia|reflexivity].
Qed.

(** C3.  On the map that holds only [[0, 20) -> "A"], [erase(0, 10)]
    applied once and applied twice give different maps: the second call
    removes the node [[0, 0)] that the first one leaves. *)
Theorem erase_range_twice_differs :
  exists m1 m2,
    erase_range String.eqb 3 [(0, (20, A))] 0 10 = Some m1
    /\ erase_range String.eqb 3 m1 0 10 = Some m2
    /\ m1 = [(0, (0, A)); (10, (20, A))]
    /\ m2 = [(10, (20, A))]
    /\ m1 <> m2.
Proof.
  exists [(0, (0, A)); (10, (20, A))], [(10, (20, A))].
  repeat split; try reflexivity. discriminate.
Qed.

(** C9.  On the state that [insert(0, 20, "A")] and then [erase(0, 10)]
    produce from the empty map, no stored interval contains the point
    [0], and yet [erase(0)] returns [true] and removes a node: [locate]
    takes the empty node [[0, 0)] that [erase(l, r)] left for the
    interval of [0]. *)
Theorem erase_point_removes_empty_node :
  reachable String.eqb [(0, (0, A)); (10, (20, A))]
  /\ (forall e, In e [(0, (0, A)); (10, (20, A))] -> ~ contains e 0)
  /\ erase_point [(0, (0, A)); (10, (20, A))] 0 = (true, [(10, (20, A))]).
Proof.
  split; [|split].
  - apply (reach_erase_range string String.eqb
             (snd (insert [] 0 20 A)) 0 10 3).
    + apply reach_insert. apply reach_empty.
    + reflexivity.
  - intros e [<-|[<-|[]]]; unfold contains, left, right; simpl; lia.
  - reflexivity.
Qed.

(** C10.  On the same state, no stored interval contains the point [0],
    and yet [find(0)] returns the bounds [(0, 0)] together with the
    value ["A"] of the empty node [[0, 0)], not the triple
    [(0, 0, absent)]. *)
Theorem find_returns_empty_node :
  reachable String.eqb [(0, (0, A)); (10, (20, A))]
  /\ (forall e, In e [(0, (0, A)); (10, (20, A))] -> ~ contains e 0)
  /\ find [(0, (0, A)); (10, (20, A))] 0 = (0, 0, Some A).
Proof.
  split; [|split].
  - apply (reach_erase_range string String.eqb
             (snd (insert [] 0 20 A)) 0 10 3).
    + apply reach_insert. apply reach_empty.
    + reflexivity.
  - intros e [<-|[<-|[]]]; unfold contains, left, right; simpl; lia.
  - reflexivity.
Qed.

(** C6.  From the empty map, [inject(0, 10, "A")] then
    [inject(10, 20, "A")] give the single node [[0, 20) -> "A"]; with
    ["B"] in the second call they give the two nodes [[0, 10) -> "A"] and
    [[10, 20) -> "B"]. *)
Theorem inject_merge_example :
  inject String.eqb [] 0 10 A = (true, [(0, (10, A))])
  /\ inject String.eqb [(0, (10, A))] 10 20 A = (true, [(0, (20, A))])
  /\ inject String.eqb [(0, (10, A))] 10 20 B
     = (true, [(0, (10, A)); (10, (20, B))]).
Proof. repeat split. Qed.

(** C7 as stated fails: on the map [[0, 20) -> "A"], [[20, 30) -> "A"],
    [erase(5, 10)] removes the node [[20, 30) -> "A"], which starts after
    [10], and stores [[10, 30) -> "A"] instead. *)
Lemma erase_range_fuses_neighbour :
  range_map_inv [(0, (20, A)); (20, (30, A))]
  /\ erase_range String.eqb 3 [(0, (20, A)); (20, (30, A))] 5 10
     = Some [(0, (5, A)); (10, (30, A))]
  /\ In (20, (30, A)) [(0, (20, A)); (20, (30, A))]
  /\ 10 <= left (20, (30, A))
  /\ ~ In (20, (30, A)) [(0, (5, A)); (10, (30, A))].
Proof.
  split; [apply nodes_ok_range_map_inv; reflexivity|].
  split; [reflexivity|]. split; [right; left; reflexivity|].
  split; [unfold left; simpl; lia|].
  intros [H|[H|[]]]; discriminate.
Qed.

(** *** Instances *)

Lemma insert_spec_witness :
  maintained [(0, (10, A))]
  /\ fst (insert [(0, (10, A))] 10 20 A) = true
  /\ exists m1 m2,
       [(0, (10, A))] = m1 ++ m2
       /\ snd (insert [(0, (10, A))] 10 20 A) = m1 ++ (10, (20, A)) :: m2.
Proof.
  assert (Hm : maintained [(0, (10, A))])
    by (apply nodes_ok_maintained; reflexivity).
  split; [exact Hm|].
  pose proof (insert_spec string [(0, (10, A))] 10 20 A Hm) as H.
  cbv zeta in H. destruct H as (H1 & H2 & _).
  assert (Hfits : 10 < 20
                  /\ (forall e, In e [(0, (10, A))] -> ~ contains e 10)
                  /\ (forall e, In e [(0, (10, A))] ->
                        10 <= left e -> 20 <= left e)).
  { split; [lia|]. split.
    - intros e [<-|[]]. unfold contains, left, right. simpl. lia.
    - intros e [<-|[]]. unfold left. simpl. lia. }
  split; [apply H1, Hfits|apply H2, Hfits].
Defined.

Lemma inject_rejects_overlap_witness :
  maintained [(0, (10, A))]
  /\ inject String.eqb [(0, (10, A))] 5 15 B = (false, [(0, (10, A))]).
Proof.
  assert (Hm : maintained [(0, (10, A))])
    by (apply nodes_ok_maintained; reflexivity).
  split; [exact Hm|].
  apply (inject_rejects_overlap string String.eqb [(0, (10, A))] 5 15 B Hm).
  right. exists (0, (10, A)). split; [left; reflexivity|].
  exists 5. unfold contains, left, right. simpl. lia.
Defined.

Lemma erase_range_frame_witness :
  maintained [(0, (20, A)); (20, (30, A)); (40, (50, B))]
  /\ erase_range String.eqb 7 [(0, (20, A)); (20, (30, A)); (40, (50, B))] 5 10
     = Some [(0, (5, A)); (10, (30, A)); (40, (50, B))]
  /\ In (40, (50, B)) [(0, (5, A)); (10, (30, A)); (40, (50, B))]
  /\ ~ In (20, (30, A)) [(0, (5, A)); (10, (30, A)); (40, (50, B))]
  /\ (In (10, (30, A)) [(0, (5, A)); (10, (30, A)); (40, (50, B))]
      /\ exists e0,
           In e0 [(0, (20, A)); (20, (30, A)); (40, (50, B))]
           /\ left e0 <= 5 /\ 10 < right e0
           /\ right e0 = 20 /\ value e0 = A).
Proof.
  assert (Hm : maintained [(0, (20, A)); (20, (30, A)); (40, (50, B))])
    by (apply nodes_ok_maintained; reflexivity).
  assert (Hno : ~ In (20, (30, A)) [(0, (5, A)); (10, (30, A)); (40, (50, B))])
    by (intros [H|[H|[H|[]]]]; discriminate).
  split; [exact Hm|]. split; [reflexivity|].
  split; [right; right; left; reflexivity|]. split; [exact Hno|].
  destruct (erase_range_frame string String.eqb String.eqb_eq
              [(0, (20, A)); (20, (30, A)); (40, (50, B))] 5 10 Hm)
    as (m' & Hrun & Hframe).
  specialize (Hrun 7%nat (Nat.le_refl 7)).
  change (Some [(0, (5, A)); (10, (30, A)); (40, (50, B))] = Some m') in Hrun.
  injection Hrun as <-.
  destruct (Hframe (20, (30, A))) as [Hin|Hfused].
  - right. left. reflexivity.
  - unfold left. simpl. lia.
  - contradiction.
  - exact Hfused.
Defined.

Lemma erase_range_terminates_witness :
  reachable String.eqb [(0, (20, A))]
  /\ exists m',
       forall fuel,
         (2 * List.length [(0, (20, A))] + 1 <= fuel)%nat ->
         erase_range String.eqb fuel [(0, (20, A))] 0 10 = Some m'.
Proof.
  assert (Hr : reachable String.eqb [(0, (20, A))])
    by (apply (reach_insert string String.eqb [] 0 20 A); apply reach_empty).
  split; [exact Hr|].
  apply (erase_range_terminates string String.eqb [(0, (20, A))] 0 10 Hr).
Defined.

Lemma erase_point_spec_witness :
  range_map_inv [(0, (10, A)); (10, (20, B))]
  /\ (exists m1 m2,
        [(0, (10, A)); (10, (20, B))] = m1 ++ (0, (10, A)) :: m2
        /\ erase_point [(0, (10, A)); (10, (20, B))] 5 = (true, m1 ++ m2))
  /\ erase_point [(0, (10, A)); (10, (20, B))] 25
     = (false, [(0, (10, A)); (10, (20, B))]).
Proof.
  assert (Hinv : range_map_inv [(0, (10, A)); (10, (20, B))])
    by (apply nodes_ok_range_map_inv; reflexivity).
  split; [exact Hinv|]. split.
  - apply (proj1 (erase_point_spec string _ 5 Hinv) (0, (10, A))).
    + left. reflexivity.
    + unfold contains, left, right. simpl. lia.
  - apply (proj2 (erase_point_spec string _ 25 Hinv)).
    intros e [<-|[<-|[]]]; unfold contains, left, right; simpl; lia.
Defined.

Lemma find_spec_witness :
  range_map_inv [(-5, (0, A)); (1, (5, B))]
  /\ find [(-5, (0, A)); (1, (5, B))] 3 = (1, 5, Some B)
  /\ find [(-5, (0, A)); (1, (5, B))] 0 = (0, 0, None).
Proof.
  assert (Hinv : range_map_inv [(-5, (0, A)); (1, (5, B))])
    by (apply nodes_ok_range_map_inv; reflexivity).
  split; [exact Hinv|]. split.
  - apply (proj1 (find_spec string _ 3 Hinv) (1, (5, B))).
    + right. left. reflexivity.
    + unfold contains, left, right. simpl. lia.
  - apply (proj2 (find_spec string _ 0 Hinv)).
    intros e [<-|[<-|[]]]; unfold contains, left, right; simpl; lia.
Defined.

(** *** Instances of the further properties *)

Lemma reachable_disjoint_witness :
  reachable String.eqb [(0, (10, A)); (10, (20, B))]
  /\ pairwise_disjoint [(0, (10, A)); (10, (20, B))].
Proof.
  assert (Hr : reachable String.eqb [(0, (10, A)); (10, (20, B))]).
  { apply (reach_insert string String.eqb [(0, (10, A))] 10 20 B).
    apply (reach_insert string String.eqb [] 0 10 A). apply reach_empty. }
  split; [exact Hr|].
  intros a b.
  apply (proj2 (proj2 (reachable_disjoint string String.eqb _ Hr))).
Defined.

Lemma lookup_spec_witness :
  range_map_inv [(0, (10, A)); (10, (20, B))]
  /\ lookup [(0, (10, A)); (10, (20, B))] 15 = Some B
  /\ lookup [(0, (10, A)); (10, (20, B))] 25 = None.
Proof.
  assert (Hinv : range_map_inv [(0, (10, A)); (10, (20, B))])
    by (apply nodes_ok_range_map_inv; reflexivity).
  split; [exact Hinv|]. split.
  - apply (proj1 (lookup_spec string _ 15 Hinv) B).
    exists (10, (20, B)). split; [right; left; reflexivity|].
    unfold contains, left, right, value. simpl. split; [lia|reflexivity].
  - apply (proj2 (lookup_spec string _ 25 Hinv)).
    intros e [<-|[<-|[]]]; unfold contains, left, right; simpl; lia.
Defined.

Lemma insert_lookup_witness :
  range_map_inv [(0, (10, A))]
  /\ fst (insert [(0, (10, A))] 10 20 B) = true
  /\ lookup (snd (insert [(0, (10, A))] 10 20 B)) 15 = Some B
  /\ lookup (snd (insert [(0, (10, A))] 10 20 B)) 5 = lookup [(0, (10, A))] 5.
Proof.
  assert (Hinv : range_map_inv [(0, (10, A))])
    by (apply nodes_ok_range_map_inv; reflexivity).
  split; [exact Hinv|]. split; [reflexivity|].
  destruct (insert_lookup string [(0, (10, A))] 10 20 B Hinv eq_refl)
    as (_ & Hin & Hout).
  split; [apply Hin; lia|apply Hout; lia].
Defined.

Lemma insert_rejects_overlap_witness :
  maintained [(0, (10, A))]
  /\ insert [(0, (10, A))] 5 15 B = (false, [(0, (10, A))]).
Proof.
  assert (Hm : maintained [(0, (10, A))])
    by (apply nodes_ok_maintained; reflexivity).
  split; [exact Hm|].
  apply (insert_rejects_overlap string [(0, (10, A))] 5 15 B Hm).
  exists (0, (10, A)). split; [left; reflexivity|].
  exists 5. unfold contains, left, right. simpl. lia.
Defined.

Lemma erase_point_lookup_witness :
  range_map_inv [(0, (10, A)); (10, (20, B))]
  /\ lookup (snd (erase_point [(0, (10, A)); (10, (20, B))] 5)) 7 = None
  /\ lookup (snd (erase_point [(0, (10, A)); (10, (20, B))] 5)) 15
     = lookup [(0, (10, A)); (10, (20, B))] 15.
Proof.
  assert (Hinv : range_map_inv [(0, (10, A)); (10, (20, B))])
    by (apply nodes_ok_range_map_inv; reflexivity).
  split; [exact Hinv|].
  destruct (erase_point_lookup string [(0, (10, A)); (10, (20, B))] 5
              (0, (10, A)) Hinv (or_introl eq_refl))
    as (_ & Hin & Hout).
  { unfold contains, left, right. simpl. lia. }
  split; [apply Hin|apply Hout]; unfold contains, left, right; simpl; lia.
Defined.

Lemma inject_succeeds_iff_witness :
  range_map_inv [(0, (10, A))]
  /\ (fst (inject String.eqb [(0, (10, A))] 10 20 A) = true
      <-> 10 < 20 /\ forall e, In e [(0, (10, A))] -> ~ overlaps 10 20 e).
Proof.
  assert (Hinv : range_map_inv [(0, (10, A))])
    by (apply nodes_ok_range_map_inv; reflexivity).
  split; [exact Hinv|].
  apply (inject_succeeds_iff string String.eqb [(0, (10, A))] 10 20 A Hinv).
Defined.

Lemma inject_lookup_witness :
  range_map_inv [(0, (10, A))]
  /\ inject String.eqb [(0, (10, A))] 10 20 A = (true, [(0, (20, A))])
  /\ lookup (snd (inject String.eqb [(0, (10, A))] 10 20 A)) 15 = Some A
  /\ lookup (snd (inject String.eqb [(0, (10, A))] 10 20 A)) 5
     = lookup [(0, (10, A))] 5.
Proof.
  assert (Hinv : range_map_inv [(0, (10, A))])
    by (apply nodes_ok_range_map_inv; reflexivity).
  split; [exact Hinv|]. split; [reflexivity|].
  destruct (inject_lookup string String.eqb String.eqb_eq
              [(0, (10, A))] 10 20 A Hinv eq_refl)
    as (_ & Hin & Hout).
  split; [apply Hin; lia|apply Hout; lia].
Defined.

Lemma inject_without_merge_witness :
  range_map_inv [(0, (10, A))]
  /\ inject String.eqb [(0, (10, A))] 10 20 B = insert [(0, (10, A))] 10 20 B.
Proof.
  assert (Hinv : range_map_inv [(0, (10, A))])
    by (apply nodes_ok_range_map_inv; reflexivity).
  split; [exact Hinv|].
  apply (inject_without_merge string String.eqb String.eqb_eq
           [(0, (10, A))] 10 20 B Hinv).
  intros e [<-|[]] Hv. unfold value in Hv. simpl in Hv. discriminate.
Defined.

Lemma inject_fuses_witness :
  range_map_inv [(0, (10, A)); (20, (30, A))]
  /\ inject String.eqb [(0, (10, A)); (20, (30, A))] 10 20 A
     = (true, [(0, (30, A))])
  /\ exists a b,
       In (a, (b, A)) (snd (inject String.eqb [(0, (10, A)); (20, (30, A))] 10 20 A))
       /\ ((exists e, In e [(0, (10, A)); (20, (30, A))]
                      /\ right e = 10 /\ value e = A /\ a = left e)
           \/ (a = 10 /\ forall e, In e [(0, (10, A)); (20, (30, A))] ->
                                   right e = 10 -> value e <> A))
       /\ ((exists e, In e [(0, (10, A)); (20, (30, A))]
                      /\ left e = 20 /\ value e = A /\ b = right e)
           \/ (b = 20 /\ forall e, In e [(0, (10, A)); (20, (30, A))] ->
                                   left e = 20 -> value e <> A)).
Proof.
  assert (Hinv : range_map_inv [(0, (10, A)); (20, (30, A))])
    by (apply nodes_ok_range_map_inv; reflexivity).
  split; [exact Hinv|]. split; [reflexivity|].
  apply (inject_fuses string String.eqb String.eqb_eq
           [(0, (10, A)); (20, (30, A))] 10 20 A Hinv eq_refl).
Defined.

Lemma erase_range_lookup_witness :
  range_map_inv [(0, (10, A)); (10, (20, B))]
  /\ erase_range String.eqb 5 [(0, (10, A)); (10, (20, B))] 5 15
     = Some [(0, (5, A)); (15, (20, B))]
  /\ exists m',
       (forall fuel,
           (2 * List.length [(0, (10, A)); (10, (20, B))] + 1 <= fuel)%nat ->
           erase_range String.eqb fuel [(0, (10, A)); (10, (20, B))] 5 15
           = Some m')
       /\ range_map_inv m'
       /\ forall p,
            lookup m' p
            = if (5 <=? p) && (p <? 15) then None
              else lookup [(0, (10, A)); (10, (20, B))] p.
Proof.
  assert (Hinv : range_map_inv [(0, (10, A)); (10, (20, B))])
    by (apply nodes_ok_range_map_inv; reflexivity).
  split; [exact Hinv|]. split; [reflexivity|].
  apply (erase_range_lookup string String.eqb String.eqb_eq
           [(0, (10, A)); (10, (20, B))] 5 15 Hinv).
  intros e [<-|[<-|[]]]; unfold left, right; simpl; lia.
Defined.

Lemma erase_range_twice_witness :
  range_map_inv [(0, (10, A)); (10, (20, B))]
  /\ exists m',
       (forall fuel,
           (2 * List.length [(0, (10, A)); (10, (20, B))] + 1 <= fuel)%nat ->
           erase_range String.eqb fuel [(0, (10, A)); (10, (20, B))] 5 15
           = Some m')
       /\ forall fuel, (0 < fuel)%nat ->
                       erase_range String.eqb fuel m' 5 15 = Some m'.
Proof.
  assert (Hinv : range_map_inv [(0, (10, A)); (10, (20, B))])
    by (apply nodes_ok_range_map_inv; reflexivity).
  split; [exact Hinv|].
  apply (erase_range_twice string String.eqb String.eqb_eq
           [(0, (10, A)); (10, (20, B))] 5 15 Hinv).
  intros e [<-|[<-|[]]]; unfold left, right; simpl; lia.
Defined.

Lemma erase_range_uncovered_witness :
  range_map_inv [(0, (10, A)); (20, (30, B))]
  /\ erase_range String.eqb 1 [(0, (10, A)); (20, (30, B))] 10 20
     = Some [(0, (10, A)); (20, (30, B))].
Proof.
  assert (Hinv : range_map_inv [(0, (10, A)); (20, (30, B))])
    by (apply nodes_ok_range_map_inv; reflexivity).
  split; [exact Hinv|].
  apply (erase_range_uncovered string String.eqb
           [(0, (10, A)); (20, (30, B))] 10 20 0 Hinv).
  intros e [<-|[<-|[]]] (x & Hx & Hc);
    unfold contains, left, right in Hc; simpl in Hc; lia.
Defined.

Lemma erase_range_leaves_empty_node_witness :
  range_map_inv [(0, (20, A))]
  /\ exists m',
       erase_range String.eqb 1 [(0, (20, A))] 0 10 = Some m'
       /\ In (0, (0, value (0, (20, A)))) m'
       /\ lookup m' 0 = Some (value (0, (20, A)))
       /\ ~ range_map_inv m'.
Proof.
  assert (Hinv : range_map_inv [(0, (20, A))])
    by (apply nodes_ok_range_map_inv; reflexivity).
  split; [exact Hinv|].
  apply (erase_range_leaves_empty_node string String.eqb String.eqb_eq
           [(0, (20, A))] 0 10 (0, (20, A)) 0 Hinv).
  - left. reflexivity.
  - reflexivity.
  - lia.
  - unfold right. simpl. lia.
Defined.

Lemma size_insert_erase_point_witness :
  maintained [(0, (10, A)); (10, (20, B))]
  /\ size (snd (insert [(0, (10, A)); (10, (20, B))] 20 30 A)) = 3%nat
  /\ size (snd (erase_point [(0, (10, A)); (10, (20, B))] 5)) = 1%nat.
Proof.
  assert (Hm : maintained [(0, (10, A)); (10, (20, B))])
    by (apply nodes_ok_maintained; reflexivity).
  split; [exact Hm|].
  destruct (size_insert_erase_point string _ Hm) as (Hi & He).
  split.
  - rewrite (Hi 20 30 A). reflexivity.
  - apply Nat.succ_inj.
    change (S (size (snd (erase_point [(0, (10, A)); (10, (20, B))] 5))))
      with (if fst (erase_point [(0, (10, A)); (10, (20, B))] 5)
            then S (size (snd (erase_point [(0, (10, A)); (10, (20, B))] 5)))
            else size (snd (erase_point [(0, (10, A)); (10, (20, B))] 5))).
    rewrite <- (He 5). reflexivity.
Defined.

Lemma size_inject_erase_range_witness :
  maintained [(0, (20, A))]
  /\ Nat.le (size (snd (inject String.eqb [(0, (20, A))] 20 30 A))) 2
  /\ exists m',
       (forall fuel,
           (2 * List.length [(0, (20, A))] + 1 <= fuel)%nat ->
           erase_range String.eqb fuel [(0, (20, A))] 5 10 = Some m')
       /\ Nat.le (size m') 2.
Proof.
  assert (Hm : maintained [(0, (20, A))])
    by (apply nodes_ok_maintained; reflexivity).
  split; [exact Hm|].
  destruct (size_inject_erase_range string String.eqb _ Hm) as (Hi & He).
  split; [apply (Hi 20 30 A)|apply (He 5 10)].
Defined.

Lemma traverse_ascending_witness :
  reachable String.eqb [(0, (10, A)); (10, (20, B))]
  /\ StronglySorted
       (fun a b => fst (fst a) < fst (fst b) /\ snd (fst a) <= fst (fst b))
       (traverse [(0, (10, A)); (10, (20, B))]).
Proof.
  assert (Hr : reachable String.eqb [(0, (10, A)); (10, (20, B))]).
  { apply (reach_insert string String.eqb [(0, (10, A))] 10 20 B).
    apply (reach_insert string String.eqb [] 0 10 A). apply reach_empty. }
  split; [exact Hr|].
  apply (traverse_ascending string String.eqb _ Hr).
Defined.

Lemma traverse_find_witness :
  reachable String.eqb [(0, (10, A)); (10, (20, B))]
  /\ traverse [(0, (10, A)); (10, (20, B))] = [(0, 10, A); (10, 20, B)]
  /\ find [(0, (10, A)); (10, (20, B))] 10 = (10, 20, Some B).
Proof.
  assert (Hr : reachable String.eqb [(0, (10, A)); (10, (20, B))]).
  { apply (reach_insert string String.eqb [(0, (10, A))] 10 20 B).
    apply (reach_insert string String.eqb [] 0 10 A). apply reach_empty. }
  split; [exact Hr|]. split; [reflexivity|].
  apply (traverse_find string String.eqb _ 10 20 B Hr).
  right. left. reflexivity.
Defined.

Lemma valid_state_reachable_witness :
  range_map_inv [(0, (10, A)); (10, (20, B))]
  /\ reachable String.eqb [(0, (10, A)); (10, (20, B))].
Proof.
  assert (Hinv : range_map_inv [(0, (10, A)); (10, (20, B))])
    by (apply nodes_ok_range_map_inv; reflexivity).
  split; [exact Hinv|].
  apply (valid_state_reachable string String.eqb _ Hinv).
Defined.

Lemma erase_range_no_interval_left_witness :
  reachable String.eqb [(0, (20, A))]
  /\ exists m',
       (forall fuel,
           (2 * List.length [(0, (20, A))] + 1 <= fuel)%nat ->
           erase_range String.eqb fuel [(0, (20, A))] 0 10 = Some m')
       /\ (forall e, In e m' -> right e <= 0 \/ 10 <= left e)
       /\ (forall e p, In e m' -> 0 <= p < 10 -> ~ contains e p).
Proof.
  assert (Hr : reachable String.eqb [(0, (20, A))])
    by (apply (reach_insert string String.eqb [] 0 20 A); apply reach_empty).
  split; [exact Hr|].
  apply (erase_range_no_interval_left string String.eqb String.eqb_eq
           [(0, (20, A))] 0 10 Hr).
  lia.
Defined.
